(** * lab2: grammar simplification and PDA-to-CFG conversion (src/lab2.py)

    A shallow embedding of the two classes of [lab2.py], [CFG] and
    [PDAtoCFG], and the properties of their methods.

    Python data is modelled as the program has it:
    - a [str] is the list of its Unicode code points, so that iterating a
      rule, indexing it and slicing it act on characters as in Python 3
      (the marker 'ε' is the single code point U+03B5);
    - a [dict] is an association list in insertion order whose keys are
      pairwise distinct;
    - a [set] that the program only tests for membership is a list;
    - the [list] objects held by [self.productions] are mutable and live
      in a store; a dict binds each key to a reference into that store,
      so in-place [remove]/[extend] and sharing are visible. *)

From Stdlib Require Import NArith Ascii String.
From stdpp Require Import base list.

Local Open Scope N_scope.
Local Open Scope nat_scope.

(** ** Python values *)

Abbreviation char := N (only parsing).
Abbreviation str := (list N) (only parsing).

(** The literal ['ε']. *)
Definition epsilon : str := [949%N].

(** An ASCII literal as a Python str. *)
Definition py (s : string) : str := map N_of_ascii (list_ascii_of_string s).
Arguments py s%_string.

(** Exceptions the modelled methods can raise. *)
Inductive exn := KeyError | ValueError.

Inductive result (A : Type) :=
| Ok (a : A)
| Raise (e : exn).
Arguments Ok {A} a.
Arguments Raise {A} e.

(** Sequencing: an exception ends the computation. *)
#[global] Instance result_bind : MBind result := λ A B k m,
  match m with
  | Ok a => k a
  | Raise e => Raise e
  end.

(** ** dict: association list in insertion order *)

Section dict.
Context {V : Type}.

Definition keys (d : list (str * V)) : list str := map fst d.

(** [d[k]] in an expression: [KeyError] when absent. *)
Fixpoint dict_get (d : list (str * V)) (k : str) : option V :=
  match d with
  | [] => None
  | (k', v) :: d' => if decide (k' = k) then Some v else dict_get d' k
  end.

Definition getitem (d : list (str * V)) (k : str) : result V :=
  match dict_get d k with
  | Some v => Ok v
  | None => Raise KeyError
  end.

(** [d[k] = v]: an existing key keeps its position, a new key is appended. *)
Fixpoint dict_set (d : list (str * V)) (k : str) (v : V) : list (str * V) :=
  match d with
  | [] => [(k, v)]
  | (k', v') :: d' =>
      if decide (k' = k) then (k, v) :: d' else (k', v') :: dict_set d' k v
  end.
End dict.

(** [x in s] for a set or a list of strings. *)
Definition mem (x : str) (s : list str) : bool := bool_decide (x ∈ s).

(** [s.add(x)]. *)
Definition set_add (x : str) (s : list str) : list str :=
  if mem x s then s else s ++ [x].

(** ** The store of list objects *)

Abbreviation loc := nat (only parsing).
Abbreviation heap := (list (list (list N))) (only parsing).

(** The list object behind a reference. *)
Definition deref (h : heap) (l : loc) : list str := default [] (h !! l).

(** A new list object: its reference is the next free index. *)
Definition alloc (h : heap) (v : list str) : loc * heap := (length h, h ++ [v]).

(** What a dict of references denotes in a store: key and alternatives. *)
Definition contents (h : heap) (d : list (str * loc)) : list (str * list str) :=
  map (fun kv => (kv.1, deref h kv.2)) d.

(** ** class CFG *)

Record CFG := mkCFG {
  productions : list (str * loc);
  non_terminals : list str;
  epsilon_non_terminals : list str;
  unit_productions : list (str * str);
  useful_symbols : list str
}.

(** [CFG.__init__]: the argument is stored as it is, without a copy. *)
Definition CFG_init (productions : list (str * loc)) : CFG :=
  mkCFG productions (keys productions) [] [] [].

(** *** remove_epsilon *)

(** Lines 26-29: every nonterminal with a literal 'ε' alternative. *)
Definition find_epsilon_productions (h : heap) (self : CFG) : CFG :=
  let eps :=
    foldl (fun eps '(non_terminal, rules) =>
             foldl (fun eps rule =>
                      if decide (rule = epsilon) then set_add non_terminal eps
                      else eps)
                   eps (deref h rules))
          (epsilon_non_terminals self) (productions self) in
  mkCFG (productions self) (non_terminals self) eps
        (unit_productions self) (useful_symbols self).

(** Lines 50-54: one new rule per index [i] with [rule[i]] in the set,
    namely [rule[:i] + rule[i+1:]]. *)
Definition generate_new_rules (eps : list str) (rule : str) : list str :=
  foldl (fun new_rules i =>
           match rule !! i with
           | Some c =>
               if mem [c] eps then new_rules ++ [take i rule ++ drop (S i) rule]
               else new_rules
           | None => new_rules
           end)
        [] (seq 0 (length rule)).

(** Lines 38-42: the value of [new_productions[non_terminal]] when the
    inner loop is over. *)
Definition new_rules_of (eps : list str) (rules : list str) : list str :=
  foldl (fun acc rule =>
           if existsb (fun symbol => mem [symbol] eps) rule
           then acc ++ generate_new_rules eps rule
           else acc)
        (filter (fun rule => rule ≠ epsilon) rules) rules.

(** Lines 36-43: a new dict of new list objects; the old ones are read only. *)
Definition remove_epsilon_productions (h : heap) (self : CFG) : heap * CFG :=
  let '(h', new_productions) :=
    foldl (fun '(h, new_productions) '(non_terminal, rules) =>
             let '(l, h) :=
               alloc h (new_rules_of (epsilon_non_terminals self) (deref h rules)) in
             (h, dict_set new_productions non_terminal l))
          (h, []) (productions self) in
  (h', mkCFG new_productions (non_terminals self) (epsilon_non_terminals self)
             (unit_productions self) (useful_symbols self)).

Definition remove_epsilon (h : heap) (self : CFG) : heap * CFG :=
  remove_epsilon_productions h (find_epsilon_productions h self).

(** *** remove_unit_productions *)

(** Lines 69-72. *)
Definition find_unit_productions (h : heap) (self : CFG) : CFG :=
  let units :=
    foldl (fun units '(non_terminal, rules) =>
             foldl (fun units rule =>
                      if mem rule (non_terminals self)
                      then units ++ [(non_terminal, rule)]
                      else units)
                   units (deref h rules))
          (unit_productions self) (productions self) in
  mkCFG (productions self) (non_terminals self) (epsilon_non_terminals self)
        units (useful_symbols self).

(** [list.remove(x)]: the first occurrence goes, [ValueError] without one. *)
Fixpoint list_remove (x : str) (l : list str) : result (list str) :=
  match l with
  | [] => Raise ValueError
  | y :: l' =>
      if decide (y = x) then Ok l'
      else l'' ← list_remove x l' ; Ok (y :: l'')
  end.

(** Lines 80-81 for one recorded pair; both statements update the list
    object of [non_terminal] in place, and the argument of [extend] is read
    after the removal. *)
Definition substitute_one (self : CFG) (h : heap) (p : str * str) : result heap :=
  let '(non_terminal, unit) := p in
  l ← getitem (productions self) non_terminal ;
  rules ← list_remove unit (deref h l) ;
  let h := <[l := rules]> h in
  l ← getitem (productions self) non_terminal ;
  l' ← getitem (productions self) unit ;
  Ok (<[l := deref h l ++ deref h l']> h).

Fixpoint substitute_loop (self : CFG) (h : heap) (ps : list (str * str))
  : result heap :=
  match ps with
  | [] => Ok h
  | p :: ps' => h' ← substitute_one self h p ; substitute_loop self h' ps'
  end.

(** Lines 79-81. *)
Definition substitute_unit_productions (h : heap) (self : CFG) : result heap :=
  substitute_loop self h (unit_productions self).

Definition remove_unit_productions (h : heap) (self : CFG)
  : result (heap * CFG) :=
  let self := find_unit_productions h self in
  h' ← substitute_unit_productions h self ; Ok (h', self).

(** *** remove_useless_symbols *)

Section useless.
(** [str.islower] on a one-character string: the Unicode property
    Lowercase of the code point.  The methods take the table as a
    parameter. *)
Variable islower : char → bool.

(** Lines 96-99. *)
Definition find_useful_symbols (h : heap) (self : CFG) : CFG :=
  let useful :=
    foldl (fun useful '(non_terminal, rules) =>
             foldl (fun useful rule =>
                      if forallb (fun symbol =>
                                    islower symbol
                                    || mem [symbol] (non_terminals self)) rule
                      then set_add non_terminal useful
                      else useful)
                   useful (deref h rules))
          (useful_symbols self) (productions self) in
  mkCFG (productions self) (non_terminals self) (epsilon_non_terminals self)
        (unit_productions self) useful.

(** Lines 88-89: a new dict that shares the list objects of the kept keys. *)
Definition remove_useless_symbols (h : heap) (self : CFG) : CFG :=
  let self := find_useful_symbols h self in
  mkCFG (filter (fun kv => mem kv.1 (useful_symbols self)) (productions self))
        (non_terminals self) (epsilon_non_terminals self)
        (unit_productions self) (useful_symbols self).

(** Lines 106-109: the three stages in order; the result is the final
    [self.productions] (with the store and the object it is read in). *)
Definition transform (h : heap) (self : CFG) : result (heap * CFG) :=
  let '(h, self) := remove_epsilon h self in
  '(h, self) ← remove_unit_productions h self ;
  Ok (h, remove_useless_symbols h self).
End useless.

(** ** Grammars as values *)

(** A dict whose values are pairwise distinct list objects in a store of
    their own, as [input_cfg] builds it (one [split] result per key). *)
Definition load (g : list (str * list str)) : heap * list (str * loc) :=
  (map snd g, zip (keys g) (seq 0 (length g))).

(** One stage run on a new [CFG] object for [g]; the names are those of
    the specification for [remove_epsilon], [remove_unit_productions],
    [remove_useless_symbols] and [transform]. *)
Definition eliminate_epsilon (g : list (str * list str)) : list (str * list str) :=
  let '(h, d) := load g in
  let '(h, self) := remove_epsilon h (CFG_init d) in
  contents h (productions self).

Definition eliminate_units (g : list (str * list str))
  : result (list (str * list str)) :=
  let '(h, d) := load g in
  '(h, self) ← remove_unit_productions h (CFG_init d) ;
  Ok (contents h (productions self)).

Definition prune_useless (islower : char → bool) (g : list (str * list str))
  : list (str * list str) :=
  let '(h, d) := load g in
  contents h (productions (remove_useless_symbols islower h (CFG_init d))).

(** [CFG(g).transform()]. *)
Definition normalize (islower : char → bool) (g : list (str * list str))
  : result (list (str * list str)) :=
  let '(h, d) := load g in
  '(h, self) ← transform islower h (CFG_init d) ;
  Ok (contents h (productions self)).

(** [str.islower] on one-character strings, tabulated for the code
    points below U+0080 and for U+03B1..U+03C9 (α..ω), where it is exact;
    it answers [false] elsewhere, and the grammars evaluated below contain
    no other code point.  Theorems about all grammars are stated for an
    arbitrary table. *)
Definition islower_latin_greek (c : char) : bool :=
  ((97 <=? c) && (c <=? 122) || (945 <=? c) && (c <=? 969))%N.

(** ** class PDAtoCFG *)

Record PDAtoCFG := mkPDA {
  states : list str;
  input_alphabet : list str;
  stack_alphabet : list str;
  (** the dict of transitions; each value is a set, listed in the order
      in which the loop of [convert] meets its members *)
  transitions : list ((str * str * str) * list (str * str));
  start_state : str;
  start_symbol : str;
  final_state : str;
  cfg_productions : list (str * list str)
}.

(** [PDAtoCFG.__init__]. *)
Definition PDAtoCFG_init states input_alphabet stack_alphabet transitions
    start_state start_symbol final_state : PDAtoCFG :=
  mkPDA states input_alphabet stack_alphabet transitions
        start_state start_symbol final_state [].

(** Lines 146-148. *)
Definition add_production (cfg_productions : list (str * list str))
    (lhs rhs : str) : list (str * list str) :=
  let cfg_productions :=
    match dict_get cfg_productions lhs with
    | None => dict_set cfg_productions lhs []
    | Some _ => cfg_productions
    end in
  dict_set cfg_productions lhs
           (default [] (dict_get cfg_productions lhs) ++ [rhs]).

(** Lines 134-137: the production of round [i] of the innermost loop. *)
Definition production_at (current_state input_symbol stack_symbol
    next_state new_stack : str) (i : nat) : str * str :=
  let lhs := current_state ++ stack_symbol ++ next_state in
  let rhs := if decide (input_symbol ≠ epsilon) then input_symbol else [] in
  let rhs :=
    if decide (i < length new_stack)
    then rhs ++ (current_state ++ take i new_stack ++ next_state)
    else rhs in
  (lhs, rhs).

(** Lines 131-139; the value returned is [self.cfg_productions]. *)
Definition convert (self : PDAtoCFG) : list (str * list str) :=
  foldl (fun prods '((current_state, input_symbol, stack_symbol), next_states) =>
           foldl (fun prods '(next_state, new_stack) =>
                    foldl (fun prods i =>
                             let '(lhs, rhs) :=
                               production_at current_state input_symbol
                                             stack_symbol next_state new_stack i in
                             add_production prods lhs rhs)
                          prods (seq 0 (length new_stack + 1)))
                 prods next_states)
        (cfg_productions self) (transitions self).

(** ** Stores and dicts of references *)

(** Every reference held by the dict is a live object of the store. *)
Definition valid (h : heap) (d : list (str * loc)) : Prop :=
  Forall (fun kv => kv.2 < length h) d.

(** Distinct keys hold distinct list objects. *)
Definition own_lists (h : heap) (d : list (str * loc)) : Prop :=
  NoDup (keys d) ∧ NoDup (map snd d) ∧ valid h d.

(** ** Notions used to state what the methods compute *)

(** Position [i] of [rule] holds a symbol of the set. *)
Definition nullable_at (eps : list str) (rule : str) (i : nat) : Prop :=
  ∃ c, rule !! i = Some c ∧ [c] ∈ eps.

#[global] Instance nullable_at_dec eps rule i : Decision (nullable_at eps rule i).
Proof.
  unfold nullable_at. destruct (rule !! i) as [c|].
  - destruct (decide ([c] ∈ eps)).
    + left. by exists c.
    + right. intros (c' & [= <-] & ?). done.
  - right. intros (c' & ? & _). done.
Defined.

(** Number of occurrences. *)
Definition count `{EqDecision A} (x : A) (l : list A) : nat :=
  length (filter (fun y => y = x) l).

(** The pairs recorded by the scan: for each key in order, its
    alternatives that are nonterminals, in order and with repetitions. *)
Definition unit_pairs (h : heap) (nts : list str) (d : list (str * loc))
  : list (str * str) :=
  flat_map (fun kv => map (pair kv.1) (filter (fun rule => rule ∈ nts) (deref h kv.2))) d.

(** A [CFG] object on which the unit stage has not run yet, whose
    nonterminals are keys of its dict. *)
Definition before_units (self : CFG) : Prop :=
  unit_productions self = []
  ∧ ∀ x, x ∈ non_terminals self → x ∈ keys (productions self).

(** Every pending pair still has its alternative to remove. *)
Definition enough (self : CFG) (h : heap) (ps : list (str * str)) : Prop :=
  ∀ A B l, dict_get (productions self) A = Some l →
           count (A, B) ps ≤ count B (deref h l).

(** Pairs relate keys of the dict. *)
Definition closed_pairs (self : CFG) (ps : list (str * str)) : Prop :=
  ∀ A B, (A, B) ∈ ps → A ∈ keys (productions self) ∧ B ∈ keys (productions self).

(** The test of line 98 on one rule. *)
Definition usable (islower : char → bool) (nts : list str) (rule : str) : bool :=
  forallb (fun symbol => islower symbol || mem [symbol] nts) rule.

(** The alternatives of a key in a store. *)
Definition alts_at (h : heap) (d : list (str * loc)) (B : str) : list str :=
  match dict_get d B with
  | Some l => deref h l
  | None => []
  end.

(** The list object has no unit alternative. *)
Definition no_units (nts : list str) (h0 : heap) (l : loc) : Prop :=
  filter (fun r => r ∈ nts) (deref h0 l) = [].

(** No alternative of a unit target is a unit alternative. *)
Definition one_level_at (self : CFG) (nts : list str) (h0 : heap) : Prop :=
  ∀ A lA B lB,
    dict_get (productions self) A = Some lA → B ∈ deref h0 lA → B ∈ nts →
    dict_get (productions self) B = Some lB → no_units nts h0 lB.

(** What one level of substitution makes of a list object. *)
Definition substituted_at (self : CFG) (nts : list str) (h0 : heap) (l : loc)
  : list str :=
  filter (fun r => r ∉ nts) (deref h0 l)
  ++ flat_map (alts_at h0 (productions self))
              (filter (fun r => r ∈ nts) (deref h0 l)).

(** [lhs -> rhs] is a production of the dict. *)
Definition has (d : list (str * list str)) (lhs rhs : str) : Prop :=
  ∃ alts, dict_get d lhs = Some alts ∧ rhs ∈ alts.

(** Number of productions of the dict. *)
Definition size (d : list (str * list str)) : nat :=
  sum_list (map (fun kv => length kv.2) d).

(** A move of the automaton: key [(p, a, X)], member [(r, new_stack)]. *)
Definition move_of (ts : list ((str * str * str) * list (str * str)))
    (p a X r new_stack : str) : Prop :=
  ∃ next_states, ((p, a, X), next_states) ∈ ts ∧ (r, new_stack) ∈ next_states.

(** The set [self.epsilon_non_terminals] that the ε stage works with. *)
Definition epsilon_set (g : list (str * list str)) : list str :=
  epsilon_non_terminals (find_epsilon_productions (load g).1 (CFG_init (load g).2)).

(** The alternatives of a nonterminal, none for other strings. *)
Definition alts_of (g : list (str * list str)) (B : str) : list str :=
  default [] (dict_get g B).

(** One level of substitution: the alternatives that are not nonterminals,
    then the alternatives of each unit alternative, in order. *)
Definition substituted (g : list (str * list str)) (alts : list str) : list str :=
  filter (fun r => r ∉ keys g) alts
  ++ flat_map (alts_of g) (filter (fun r => r ∈ keys g) alts).

(** No alternative of a unit target is a unit alternative: whenever [B] is
    both an alternative of some nonterminal and a nonterminal, no
    alternative of [B] is a nonterminal. *)
Definition one_level (g : list (str * list str)) : Prop :=
  ∀ A alts B altsB r,
    (A, alts) ∈ g → B ∈ alts → (B, altsB) ∈ g → r ∈ altsB → r ∉ keys g.

(** A grammar on which each stage has nothing to do: no literal ε
    alternative, no alternative that is one of the keys, and for every key
    an alternative that passes the test of line 98. *)
Definition stage_fixed_point (islower : char → bool) (g : list (str * list str))
  : Prop :=
  (∀ A alts, (A, alts) ∈ g → epsilon ∉ alts)
  ∧ (∀ A alts r, (A, alts) ∈ g → r ∈ alts → r ∉ keys g)
  ∧ (∀ A alts, (A, alts) ∈ g → ∃ r, r ∈ alts ∧ usable islower (keys g) r = true).

(** ** Notions of the specification *)

(** Specification 4.1, step 1.  The smallest set closed under: a
    nonterminal is nullable when one of its alternatives is the ε marker or
    consists of nullable symbols. *)
Definition nullable_closed (g : list (str * list str)) (S : str → Prop) : Prop :=
  ∀ A alts, (A, alts) ∈ g →
    (epsilon ∈ alts ∨ (∃ alt, alt ∈ alts ∧ Forall (fun c => S [c]) alt)) → S A.

Definition nullable (g : list (str * list str)) (A : str) : Prop :=
  ∀ S, nullable_closed g S → S A.

(** [rule] without the positions listed in [ps]. *)
Definition delete_positions (ps : list nat) (rule : str) : str :=
  omap (fun i => if decide (i ∈ ps) then None else rule !! i)
       (seq 0 (length rule)).

(** Specification 4.1, step 2.  One new alternative for every non-empty
    set of positions that hold nullable nonterminals ... *)
Definition emits_every_subset (g out : list (str * list str)) : Prop :=
  ∀ A alts rule ps,
    (A, alts) ∈ g → rule ∈ alts → ps ≠ [] →
    Forall (fun i => ∃ c, rule !! i = Some c ∧ nullable g [c]) ps →
    ∃ alts', (A, alts') ∈ out ∧ delete_positions ps rule ∈ alts'.

(** ... and no alternative twice under one nonterminal. *)
Definition deduplicated (out : list (str * list str)) : Prop :=
  ∀ A alts, (A, alts) ∈ out → NoDup alts.

(** Specification 4.3, pass 1.  A symbol generates when it is a terminal
    (not a key of the grammar) or a nonterminal one of whose alternatives
    consists of generating symbols: the smallest such set. *)
Definition generating_closed (g : list (str * list str)) (S : str → Prop) : Prop :=
  ∀ A alts alt, (A, alts) ∈ g → alt ∈ alts →
    Forall (fun c => [c] ∈ keys g → S [c]) alt → S A.

Definition generating (g : list (str * list str)) (A : str) : Prop :=
  ∀ S, generating_closed g S → S A.

(** Specification 4.3, pass 2.  The start symbol is reachable, and so is
    every symbol of an alternative of a reachable nonterminal: the smallest
    such set. *)
Definition reachable_closed (g : list (str * list str)) (start : str)
    (S : str → Prop) : Prop :=
  S start
  ∧ ∀ A alts alt c, S A → (A, alts) ∈ g → alt ∈ alts → c ∈ alt → S [c].

Definition reachable (g : list (str * list str)) (start : str) (X : str) : Prop :=
  ∀ S, reachable_closed g start S → S X.

(** Specification 4.4.  The same productions, whatever the order of the
    alternatives. *)
Definition same_productions (g g' : list (str * list str)) : Prop :=
  ∀ A r, has g A r ↔ has g' A r.




(** ** Grammars and automata used as examples *)

(** [A -> BC], [B -> ε], [C -> ε]. *)
Definition grammar_ABC : list (str * list str) :=
  [(py "A", [py "BC"]); (py "B", [epsilon]); (py "C", [epsilon])].

(** [S -> BaC | BB], [B -> ε | b], [C -> ε | c]. *)
Definition grammar_two_nullable : list (str * list str) :=
  [(py "S", [py "BaC"; py "BB"]);
   (py "B", [epsilon; py "b"]);
   (py "C", [epsilon; py "c"])].

(** [S -> AC], [A -> B], [C -> B], [B -> ε | b]. *)
Definition grammar_unit_nullable : list (str * list str) :=
  [(py "S", [py "AC"]);
   (py "A", [py "B"]);
   (py "C", [py "B"]);
   (py "B", [epsilon; py "b"])].

(** [S -> a | X], [X -> X], [Y -> b]: [X] is reachable and does not
    generate, [Y] generates and is not reachable. *)
Definition grammar_useless : list (str * list str) :=
  [(py "S", [py "a"; py "X"]); (py "X", [py "X"]); (py "Y", [py "b"])].

(** [A -> B], [B -> C], [C -> d]. *)
Definition grammar_chain : list (str * list str) :=
  [(py "A", [py "B"]); (py "B", [py "C"]); (py "C", [py "d"])].

(** The productions of [grammar_chain] with the keys in the order [C],
    [B], [A]. *)
Definition grammar_chain_reversed : list (str * list str) :=
  [(py "C", [py "d"]); (py "B", [py "C"]); (py "A", [py "B"])].

(** [S -> A | a | A], [A -> b | c]. *)
Definition grammar_one_unit : list (str * list str) :=
  [(py "S", [py "A"; py "a"; py "A"]); (py "A", [py "b"; py "c"])].

(** [A -> A | B | B | a], [B -> A | b]: a self-unit, a repeated unit
    alternative and a cycle. *)
Definition grammar_units : list (str * list str) :=
  [(py "A", [py "A"; py "B"; py "B"; py "a"]); (py "B", [py "A"; py "b"])].

(** [S -> aB | bε]: [B] is not declared, and ε is mixed with [b]. *)
Definition grammar_malformed : list (str * list str) :=
  [(py "S", [py "aB"; py "b" ++ epsilon])].

(** [S -> aX], [X -> B]: [B] is not a nonterminal, so [X] has no
    alternative that passes the test of line 98, and [S] has one only as
    long as [X] is a nonterminal. *)
Definition grammar_dangling : list (str * list str) :=
  [(py "S", [py "aX"]); (py "X", [py "B"])].

(** [S -> aAb | B], [A -> ε | c], [B -> d]: one nullable position and one
    unit alternative whose target has none. *)
Definition grammar_unit_epsilon : list (str * list str) :=
  [(py "S", [py "aAb"; py "B"]); (py "A", [epsilon; py "c"]); (py "B", [py "d"])].

(** [l = ['B']] and [{'A': l, 'D': l, 'B': ['x']}]: one list object under
    the two keys [A] and [D]. *)
Definition shared_store : heap := [[py "B"]; [py "x"]].

Definition shared_dict : list (str * loc) :=
  [(py "A", 0); (py "D", 0); (py "B", 1)].

(** A transition out of [q9] on stack symbol [W] into [q7], none of them
    declared, and no start or accepting state among the states. *)
Definition pda_malformed : PDAtoCFG :=
  PDAtoCFG_init [py "p"] [py "a"] [py "Z"]
           [((py "q9", py "a", py "W"), [(py "q7", py "ZZ")])]
           (py "s") (py "Y") (py "f").


(** ** The object after [convert] *)

(** [convert] appends to [self.cfg_productions] in place and returns that
    dict (lines 124, 139, 146-148); the other fields stay. *)
Definition after_convert (self : PDAtoCFG) : PDAtoCFG :=
  mkPDA (states self) (input_alphabet self) (stack_alphabet self)
        (transitions self) (start_state self) (start_symbol self)
        (final_state self) (convert self).

(** ** Console input: input_cfg and input_pda (lines 150-183)

    Standard input is the list of the lines still to be read; [input]
    takes the first one and raises [EOFError] when there is none.  The
    prompts written to standard output are not modelled.  The builtins
    [int] and [str.split()] (on white space) are parameters. *)

Inductive io_exn :=
| EOFError
| Exn (e : exn).

Inductive outcome (A : Type) :=
| Done (a : A)
| Fail (e : io_exn).
Arguments Done {A} a.
Arguments Fail {A} e.

(** ['|'] and [','] *)
Definition bar : char := 124%N.
Definition comma : char := 44%N.

(** [s.split(sep)] for a separator of one character. *)
Fixpoint split_on (sep : char) (s : str) : list str :=
  match s with
  | [] => [[]]
  | c :: s' =>
      if decide (c = sep) then [] :: split_on sep s'
      else match split_on sep s' with
           | piece :: pieces => (c :: piece) :: pieces
           | [] => [[c]]
           end
  end.

(** [sep.join(l)]. *)
Fixpoint join (sep : str) (l : list str) : str :=
  match l with
  | [] => []
  | [x] => x
  | x :: l' => x ++ sep ++ join sep l'
  end.

(** Lines 157-160: [n] rounds of the loop of [input_cfg]; each round
    reads two lines, builds a new list object with [split('|')] and binds
    the left side to it. *)
Fixpoint input_cfg_loop (n : nat) (stdin : list str) (h : heap)
    (productions : list (str * loc))
  : outcome (list str * heap * list (str * loc)) :=
  match n with
  | 0 => Done (stdin, h, productions)
  | S n' =>
      match stdin with
      | lhs :: rhs :: stdin' =>
          let '(l, h) := alloc h (split_on bar rhs) in
          input_cfg_loop n' stdin' h (dict_set productions lhs l)
      | _ => Fail EOFError
      end
  end.

Section console.
(** [int(s)]: [None] when it raises [ValueError]. *)
Variable int : str → option Z.
(** [s.split()]. *)
Variable split_ws : str → list str.

(** Lines 155-161; [range(n)] is empty for [n <= 0]. *)
Definition input_cfg (stdin : list str) (h : heap)
  : outcome (list str * heap * list (str * loc)) :=
  match stdin with
  | [] => Fail EOFError
  | line :: stdin' =>
      match int line with
      | None => Fail (Exn ValueError)
      | Some n => input_cfg_loop (Z.to_nat n) stdin' h []
      end
  end.

(** Lines 175-179 for one line: five fields or [ValueError]; a new key
    gets an empty set, and the move joins the set of its key.  A set is
    listed in the order of arrival; Python fixes no order for it. *)
Definition add_transition
    (transitions : list ((str * str * str) * list (str * str))) (transition : str)
  : outcome (list ((str * str * str) * list (str * str))) :=
  match split_on comma transition with
  | [current_state; input_symbol; stack_symbol; next_state; new_stack] =>
      let key := (current_state, input_symbol, stack_symbol) in
      let transitions :=
        if decide (key ∈ map fst transitions) then transitions
        else transitions ++ [(key, [])] in
      Done (map (fun t =>
                   if decide (t.1 = key)
                   then (t.1, if decide ((next_state, new_stack) ∈ t.2) then t.2
                              else t.2 ++ [(next_state, new_stack)])
                   else t)
                transitions)
  | _ => Fail (Exn ValueError)
  end.

(** Lines 173-179. *)
Fixpoint read_transitions (n : nat) (stdin : list str)
    (transitions : list ((str * str * str) * list (str * str)))
  : outcome (list str * list ((str * str * str) * list (str * str))) :=
  match n with
  | 0 => Done (stdin, transitions)
  | S n' =>
      match stdin with
      | [] => Fail EOFError
      | transition :: stdin' =>
          match add_transition transitions transition with
          | Done transitions => read_transitions n' stdin' transitions
          | Fail e => Fail e
          end
      end
  end.

(** Lines 168-183: the seven values returned, as the arguments of
    [PDAtoCFG.__init__] (line 207), and the lines left. *)
Definition input_pda (stdin : list str) : outcome (list str * PDAtoCFG) :=
  match stdin with
  | l1 :: l2 :: l3 :: l4 :: stdin =>
      match int l4 with
      | None => Fail (Exn ValueError)
      | Some num_transitions =>
          match read_transitions (Z.to_nat num_transitions) stdin [] with
          | Fail e => Fail e
          | Done (stdin, transitions) =>
              match stdin with
              | start_state :: start_symbol :: final_state :: stdin =>
                  Done (stdin,
                        PDAtoCFG_init (remove_dups (split_ws l1))
                                      (remove_dups (split_ws l2))
                                      (remove_dups (split_ws l3))
                                      transitions
                                      start_state start_symbol final_state)
              | _ => Fail EOFError
              end
          end
      end
  | _ => Fail EOFError
  end.
End console.

(** The pairs of lines that [n] rounds of the loop of [input_cfg] read. *)
Fixpoint entries (n : nat) (stdin : list str) : list (str * str) :=
  match n, stdin with
  | S n', lhs :: rhs :: stdin' => (lhs, rhs) :: entries n' stdin'
  | _, _ => []
  end.

(** [productions[lhs] = rhs.split('|')] for each pair in turn, on values. *)
Definition dict_of_entries (es : list (str * str)) : list (str * list str) :=
  foldl (fun productions e => dict_set productions e.1 (split_on bar e.2)) [] es.

(** [int] on the non-empty strings of ASCII digits, where it is exact;
    [None] elsewhere (Python also accepts signs, blanks, underscores and
    other digits).  Used for the examples only. *)
Fixpoint int_digits (acc : Z) (s : str) : option Z :=
  match s with
  | [] => Some acc
  | c :: s' =>
      if ((48 <=? c) && (c <=? 57))%N
      then int_digits (10 * acc + Z.of_N (c - 48)) s'
      else None
  end.

Definition int_decimal (s : str) : option Z :=
  match s with
  | [] => None
  | _ => int_digits 0 s
  end.

(** [s.split()] on words separated by single blanks, where it is the
    split on the blank; used for the examples only. *)
Definition split_blank (s : str) : list str := split_on 32%N s.

(** What [read_transitions] yields, by kind of outcome: a line without
    exactly five fields among the lines it has to read gives [ValueError];
    otherwise too few lines give [EOFError]; otherwise the lines after
    the [n] read are left, and the moves are those of the lines read. *)
Definition read_transitions_outcome (n : nat) (stdin : list str)
    (ts : list ((str * str * str) * list (str * str)))
    (o : outcome (list str * list ((str * str * str) * list (str * str))))
  : Prop :=
  match o with
  | Fail (Exn ValueError) =>
      Exists (fun line => length (split_on comma line) ≠ 5) (take n stdin)
  | Fail (Exn KeyError) => False
  | Fail EOFError =>
      Forall (fun line => length (split_on comma line) = 5) (take n stdin)
      ∧ length stdin < n
  | Done (stdin', ts') =>
      Forall (fun line => length (split_on comma line) = 5) (take n stdin)
      ∧ n ≤ length stdin ∧ stdin' = drop n stdin
      ∧ (NoDup (map fst ts) → NoDup (map fst ts'))
      ∧ (Forall (fun t => NoDup t.2) ts → Forall (fun t => NoDup t.2) ts')
      ∧ ∀ p a X r ns,
          move_of ts' p a X r ns
          ↔ move_of ts p a X r ns
            ∨ ∃ line, line ∈ take n stdin ∧ split_on comma line = [p; a; X; r; ns]
  end.

(** * Properties *)

(** Closed goals over concrete grammars are decided by evaluation. *)
Ltac by_compute := apply (bool_decide_unpack _); vm_compute; exact I.

#[local] Arguments production_at : simpl never.
#[local] Arguments add_production : simpl never.
(** ** dict and store lemmas *)

Section dict_facts.
Context {V : Type}.
Implicit Types (d : list (str * V)) (k : str) (v : V).

Lemma dict_get_None d k : dict_get d k = None ↔ k ∉ keys d.
Proof.
  induction d as [|[k' v'] d IH]; simpl.
  - split; [intros _; apply not_elem_of_nil | done].
  - rewrite not_elem_of_cons. destruct (decide (k' = k)) as [->|Hne].
    + split; [done | intros [? _]; done].
    + rewrite IH. split; [intros ?; split; [congruence | done] | tauto].
Qed.

Lemma dict_get_Some_elem d k v : dict_get d k = Some v → (k, v) ∈ d.
Proof.
  induction d as [|[k' v'] d IH]; simpl; [done|].
  destruct (decide (k' = k)) as [->|Hne].
  - intros [= ->]. apply list_elem_of_here.
  - intros H. apply list_elem_of_further, IH, H.
Qed.

Lemma dict_get_elem d k v : NoDup (keys d) → (k, v) ∈ d → dict_get d k = Some v.
Proof.
  induction d as [|[k' v'] d IH]; simpl; intros Hnd Hin.
  - by apply elem_of_nil in Hin.
  - apply NoDup_cons in Hnd as [Hk' Hnd].
    apply elem_of_cons in Hin as [[= -> ->]|Hin].
    + by rewrite decide_True.
    + rewrite decide_False; [by apply IH|].
      intros ->. apply Hk'. apply list_elem_of_fmap. by exists (k, v).
Qed.

Lemma dict_get_is_Some d k : k ∈ keys d → is_Some (dict_get d k).
Proof.
  intros Hk. destruct (dict_get d k) eqn:E; [by eexists|].
  by apply dict_get_None in E.
Qed.

Lemma dict_set_fresh d k v : k ∉ keys d → dict_set d k v = d ++ [(k, v)].
Proof.
  induction d as [|[k' v'] d IH]; simpl; [done|].
  rewrite not_elem_of_cons. intros [Hne Hk].
  rewrite decide_False; [|congruence]. by rewrite IH.
Qed.

Lemma dict_get_set d k v k' :
  dict_get (dict_set d k v) k' = if decide (k = k') then Some v else dict_get d k'.
Proof.
  induction d as [|[k0 v0] d IH]; simpl.
  - destruct (decide (k = k')); done.
  - destruct (decide (k0 = k)) as [->|Hne]; simpl.
    + destruct (decide (k = k')); done.
    + destruct (decide (k0 = k')) as [->|Hne'].
      * by rewrite decide_False by congruence.
      * apply IH.
Qed.
End dict_facts.

Lemma mem_true x s : mem x s = true ↔ x ∈ s.
Proof. unfold mem. apply bool_decide_eq_true. Qed.

Lemma mem_false x s : mem x s = false ↔ x ∉ s.
Proof. unfold mem. apply bool_decide_eq_false. Qed.

Lemma elem_of_set_add y x s : y ∈ set_add x s ↔ y ∈ s ∨ y = x.
Proof.
  unfold set_add. destruct (mem x s) eqn:E.
  - apply mem_true in E. split; [by left | intros [?| ->]; done].
  - rewrite elem_of_app, list_elem_of_singleton. done.
Qed.

Lemma deref_app_l (h h' : heap) l : l < length h → deref (h ++ h') l = deref h l.
Proof. intros Hl. unfold deref. by rewrite lookup_app_l. Qed.

Lemma deref_insert_eq (h : heap) l v : l < length h → deref (<[l := v]> h) l = v.
Proof. intros Hl. unfold deref. by rewrite list_lookup_insert_eq. Qed.

Lemma deref_insert_ne (h : heap) l l' v : l ≠ l' → deref (<[l := v]> h) l' = deref h l'.
Proof. intros Hl. unfold deref. by rewrite list_lookup_insert_ne. Qed.

Lemma contents_app_l (h h' : heap) d : valid h d → contents (h ++ h') d = contents h d.
Proof.
  intros Hv. unfold contents. apply map_ext_Forall.
  eapply Forall_impl; [exact Hv|]. intros [k l] Hl; simpl in *.
  by rewrite deref_app_l.
Qed.

Lemma contents_zip_new (h : heap) (ks : list str) (vs : list (list str)) :
  length ks = length vs →
  contents (h ++ vs) (zip ks (seq (length h) (length vs))) = zip ks vs.
Proof.
  revert h ks. induction vs as [|v vs IH]; intros h [|k ks]; simpl; try done.
  intros [= Hlen]. f_equal.
  - f_equal. unfold deref. by rewrite list_lookup_middle.
  - specialize (IH (h ++ [v]) ks Hlen).
    rewrite length_app, <- app_assoc in IH. simpl in IH.
    by rewrite Nat.add_1_r in IH.
Qed.

Lemma load_contents g : contents (load g).1 (load g).2 = g.
Proof.
  unfold load; simpl. unfold keys.
  pose proof (contents_zip_new [] (map fst g) (map snd g)) as H.
  simpl in H. rewrite !length_map in H. rewrite H by done.
  clear H. induction g as [|[k v] g IH]; simpl; [done|]. by rewrite IH.
Qed.

Lemma keys_zip {B} (ks : list str) (ls : list B) :
  length ks = length ls → keys (zip ks ls) = ks.
Proof. intros H. unfold keys. apply fst_zip. lia. Qed.

Lemma load_own_lists g : NoDup (keys g) → own_lists (load g).1 (load g).2.
Proof.
  intros Hnd. unfold load, own_lists; simpl. split_and!.
  - rewrite keys_zip; [done|]. unfold keys. by rewrite length_map, length_seq.
  - rewrite snd_zip; [apply NoDup_seq|]. unfold keys. rewrite length_map, length_seq. lia.
  - unfold valid. apply Forall_forall. intros [k l] Hin; simpl.
    apply elem_of_zip_r in Hin. apply elem_of_seq in Hin. rewrite length_map. lia.
Qed.

(** ** The ε stage *)

Lemma find_epsilon_rules_elem (nt : str) (rules eps : list str) (x : str) :
  x ∈ foldl (fun eps rule =>
               if decide (rule = epsilon) then set_add nt eps else eps) eps rules
  ↔ x ∈ eps ∨ (x = nt ∧ epsilon ∈ rules).
Proof.
  revert eps. induction rules as [|rule rules IH]; intros eps; simpl.
  - split; [by left | intros [?|[_ H]]; [done | by apply elem_of_nil in H]].
  - rewrite IH. destruct (decide (rule = epsilon)) as [->|Hne].
    + rewrite elem_of_set_add, elem_of_cons. split.
      * intros [[?| ->]|[-> ?]]; [by left | right; split; [done | by left]
                                  | right; split; [done | by right]].
      * intros [?|[-> _]]; [by left; left | by left; right].
    + rewrite elem_of_cons. split.
      * intros [?|[-> ?]]; [by left | right; split; [done | by right]].
      * intros [?|[-> [?|?]]]; [by left | congruence | by right].
Qed.

Lemma find_epsilon_productions_elem (h : heap) (self : CFG) (x : str) :
  x ∈ epsilon_non_terminals (find_epsilon_productions h self)
  ↔ x ∈ epsilon_non_terminals self
    ∨ ∃ l, (x, l) ∈ productions self ∧ epsilon ∈ deref h l.
Proof.
  unfold find_epsilon_productions; simpl.
  generalize (epsilon_non_terminals self) as eps.
  induction (productions self) as [|[nt l] d IH]; intros eps; simpl.
  - split; [by left | intros [?|(? & H & _)]; [done | by apply elem_of_nil in H]].
  - rewrite IH, find_epsilon_rules_elem. split.
    + intros [[?|[-> ?]]|(l' & ? & ?)]; [by left | right..].
      * exists l. split; [apply list_elem_of_here | done].
      * exists l'. split; [by apply list_elem_of_further | done].
    + intros [?|(l' & Hin & ?)]; [by left; left|].
      apply elem_of_cons in Hin as [[= -> ->]|Hin]; [left; right; done|].
      right. by exists l'.
Qed.

Lemma generate_new_rules_fold (eps : list str) (rule : str) (ixs : list nat)
    (acc : list str) :
  foldl (fun new_rules i =>
           match rule !! i with
           | Some c =>
               if mem [c] eps then new_rules ++ [take i rule ++ drop (S i) rule]
               else new_rules
           | None => new_rules
           end) acc ixs
  = acc ++ map (fun i => take i rule ++ drop (S i) rule)
               (filter (nullable_at eps rule) ixs).
Proof.
  revert acc. induction ixs as [|i ixs IH]; intros acc; simpl.
  - by rewrite app_nil_r.
  - rewrite IH. rewrite filter_cons.
    destruct (rule !! i) as [c|] eqn:Hi.
    + destruct (mem [c] eps) eqn:Hc.
      * apply mem_true in Hc. rewrite decide_True by (by exists c).
        by rewrite <- app_assoc.
      * apply mem_false in Hc. rewrite decide_False; [done|].
        intros (c' & Hc' & ?). congruence.
    + rewrite decide_False; [done|]. intros (c' & Hc' & ?). congruence.
Qed.

Lemma generate_new_rules_eq (eps : list str) (rule : str) :
  generate_new_rules eps rule
  = map (fun i => take i rule ++ drop (S i) rule)
        (filter (nullable_at eps rule) (seq 0 (length rule))).
Proof. unfold generate_new_rules. by rewrite generate_new_rules_fold. Qed.

Lemma elem_of_generate_new_rules (eps : list str) (rule r : str) :
  r ∈ generate_new_rules eps rule
  ↔ ∃ i, nullable_at eps rule i ∧ r = take i rule ++ drop (S i) rule.
Proof.
  rewrite generate_new_rules_eq, list_elem_of_fmap. split.
  - intros (i & -> & Hi). apply list_elem_of_filter in Hi as [Hi _]. by exists i.
  - intros (i & Hi & ->). exists i. split; [done|].
    apply list_elem_of_filter. split; [done|].
    destruct Hi as (c & Hc & _). apply lookup_lt_Some in Hc.
    apply elem_of_seq. lia.
Qed.

Lemma filter_nullable_at_length (eps : list str) (rule : str) (n : nat) (pre : str) :
  n = length pre →
  length (filter (nullable_at eps (pre ++ rule)) (seq n (length rule)))
  = length (filter (fun c => [c] ∈ eps) rule).
Proof.
  revert n pre. induction rule as [|c rule IH]; intros n pre ->; simpl; [done|].
  rewrite !filter_cons.
  specialize (IH (S (length pre)) (pre ++ [c])).
  rewrite <- app_assoc in IH. simpl in IH.
  rewrite length_app, Nat.add_1_r in IH. specialize (IH eq_refl).
  destruct (decide ([c] ∈ eps)) as [Hc|Hc].
  - rewrite decide_True; [simpl; by rewrite IH|].
    exists c. split; [|done]. by rewrite list_lookup_middle.
  - rewrite decide_False; [done|]. intros (c' & Hc' & ?).
    rewrite list_lookup_middle in Hc' by done. congruence.
Qed.

Lemma generate_new_rules_length (eps : list str) (rule : str) :
  length (generate_new_rules eps rule) = length (filter (fun c => [c] ∈ eps) rule).
Proof.
  rewrite generate_new_rules_eq, length_map.
  by apply (filter_nullable_at_length eps rule 0 []).
Qed.

Lemma generate_new_rules_none (eps : list str) (rule : str) :
  existsb (fun symbol => mem [symbol] eps) rule = false →
  generate_new_rules eps rule = [].
Proof.
  intros H. apply length_zero_iff_nil. rewrite generate_new_rules_length.
  induction rule as [|c rule IH]; simpl in *; [done|].
  apply orb_false_iff in H as [Hc H]. apply mem_false in Hc.
  rewrite filter_cons, decide_False by done. by apply IH.
Qed.

Lemma new_rules_of_eq (eps : list str) (rules : list str) :
  new_rules_of eps rules
  = filter (fun rule => rule ≠ epsilon) rules
    ++ flat_map (generate_new_rules eps) rules.
Proof.
  unfold new_rules_of.
  generalize (filter (fun rule => rule ≠ epsilon) rules) as acc.
  induction rules as [|rule rules IH]; intros acc; simpl.
  - by rewrite app_nil_r.
  - rewrite IH.
    destruct (existsb _ rule) eqn:E.
    + by rewrite <- app_assoc.
    + by rewrite (generate_new_rules_none _ _ E).
Qed.

Lemma valid_app (h h' : heap) d : valid h d → valid (h ++ h') d.
Proof.
  unfold valid. intros H. eapply Forall_impl; [exact H|].
  intros [k l]; simpl. rewrite length_app. lia.
Qed.

Lemma remove_epsilon_fold (eps : list str) (d : list (str * loc)) :
  ∀ (h0 : heap) (nd0 : list (str * loc)),
    NoDup (keys d) → (∀ k, k ∈ keys d → k ∉ keys nd0) → valid h0 d →
    foldl (fun '(h, new_productions) '(non_terminal, rules) =>
             let '(l, h) := alloc h (new_rules_of eps (deref h rules)) in
             (h, dict_set new_productions non_terminal l))
          (h0, nd0) d
    = (h0 ++ map (fun kv => new_rules_of eps (deref h0 kv.2)) d,
       nd0 ++ zip (keys d) (seq (length h0) (length d))).
Proof.
  induction d as [|[k l] d IH]; intros h0 nd0 Hnd Hdisj Hv; simpl.
  - by rewrite !app_nil_r.
  - apply NoDup_cons in Hnd as [Hk Hnd].
    apply Forall_cons in Hv as [Hl Hv]; simpl in Hl.
    rewrite dict_set_fresh by (apply Hdisj; apply list_elem_of_here).
    rewrite IH; [|done| |by apply valid_app].
    + rewrite <- !app_assoc; simpl. rewrite length_app, Nat.add_1_r. f_equal.
      f_equal. f_equal. apply map_ext_Forall.
      eapply Forall_impl; [exact Hv|]. intros [k' l'] Hl'; simpl in *.
      by rewrite deref_app_l.
    + intros k' Hk'. unfold keys. rewrite fmap_app, elem_of_app.
      intros [Hin|Hin].
      * by apply (Hdisj k'); [apply list_elem_of_further|].
      * apply list_elem_of_singleton in Hin. simpl in Hin. by subst.
Qed.

(** The dict and the store after the rewriting loop: one new object per
    key, placed after all objects of the store it started from. *)
Lemma remove_epsilon_productions_eq (h : heap) (self : CFG) :
  NoDup (keys (productions self)) → valid h (productions self) →
  remove_epsilon_productions h self
  = (h ++ map (fun kv => new_rules_of (epsilon_non_terminals self) (deref h kv.2))
              (productions self),
     mkCFG (zip (keys (productions self))
                (seq (length h) (length (productions self))))
           (non_terminals self) (epsilon_non_terminals self)
           (unit_productions self) (useful_symbols self)).
Proof.
  intros Hnd Hv. unfold remove_epsilon_productions.
  rewrite (remove_epsilon_fold _ _ h [] Hnd); [done| |done].
  intros k _. apply not_elem_of_nil.
Qed.

Lemma remove_epsilon_own_lists (h : heap) (self : CFG) :
  NoDup (keys (productions self)) → valid h (productions self) →
  own_lists (remove_epsilon h self).1 (productions (remove_epsilon h self).2).
Proof.
  intros Hnd Hv. unfold remove_epsilon.
  rewrite remove_epsilon_productions_eq by done. simpl.
  set (d := productions self).
  assert (length (keys d) = length (seq (length h) (length d))) as Hlen.
  { unfold keys. by rewrite length_map, length_seq. }
  split_and!.
  - by rewrite keys_zip.
  - rewrite snd_zip by lia. apply NoDup_seq.
  - apply Forall_forall. intros [k l] Hin; simpl.
    apply elem_of_zip_r, elem_of_seq in Hin.
    rewrite length_app, length_map. lia.
Qed.

Lemma remove_epsilon_productions_contents (h : heap) (self : CFG) :
  NoDup (keys (productions self)) → valid h (productions self) →
  contents (remove_epsilon_productions h self).1
           (productions (remove_epsilon_productions h self).2)
  = map (fun '(nt, rules) => (nt, new_rules_of (epsilon_non_terminals self) rules))
        (contents h (productions self)).
Proof.
  intros Hnd Hv. rewrite remove_epsilon_productions_eq by done.
  destruct self as [d nts eps units useful]; simpl in *.
  pose proof (contents_zip_new h (keys d)
                (map (fun kv => new_rules_of eps (deref h kv.2)) d)) as H.
  rewrite length_map in H. rewrite H by (unfold keys; by rewrite length_map).
  unfold contents, keys. clear. induction d as [|[k l] d IH]; simpl; [done|].
  by rewrite IH.
Qed.

Lemma remove_epsilon_contents (h : heap) (self : CFG) :
  NoDup (keys (productions self)) → valid h (productions self) →
  contents (remove_epsilon h self).1 (productions (remove_epsilon h self).2)
  = map (fun '(nt, rules) =>
           (nt, new_rules_of
                  (epsilon_non_terminals (find_epsilon_productions h self)) rules))
        (contents h (productions self)).
Proof.
  intros Hnd Hv. unfold remove_epsilon.
  by rewrite remove_epsilon_productions_contents.
Qed.

(** The ε stage only appends objects: what the old references denote is
    what they denoted. *)
Lemma remove_epsilon_frame (h : heap) (self : CFG) (d : list (str * loc)) :
  NoDup (keys (productions self)) → valid h (productions self) → valid h d →
  contents (remove_epsilon h self).1 d = contents h d.
Proof.
  intros Hnd Hv Hd. unfold remove_epsilon.
  rewrite remove_epsilon_productions_eq by done. simpl.
  by apply contents_app_l.
Qed.

(** ** The unit stage *)

Section count.
Context `{EqDecision A}.
Implicit Types (x y : A) (l : list A).

Lemma count_nil x : count x [] = 0.
Proof. done. Qed.

Lemma count_cons x y l :
  count x (y :: l) = (if decide (y = x) then 1 else 0) + count x l.
Proof. unfold count. rewrite filter_cons. by destruct (decide (y = x)). Qed.

Lemma count_app x l l' : count x (l ++ l') = count x l + count x l'.
Proof. unfold count. by rewrite filter_app, length_app. Qed.

Lemma count_pos x l : 0 < count x l ↔ x ∈ l.
Proof.
  induction l as [|y l IH]; simpl.
  - rewrite count_nil. split; [lia | intros H; by apply elem_of_nil in H].
  - rewrite count_cons, elem_of_cons. destruct (decide (y = x)) as [->|Hne].
    + split; [by left | lia].
    + simpl. rewrite IH. split; [by right | intros [->|?]; done].
Qed.
End count.

Lemma list_remove_Ok (x : str) (l : list str) :
  x ∈ l →
  ∃ l', list_remove x l = Ok l'
        ∧ ∀ y, count y l = (if decide (x = y) then 1 else 0) + count y l'.
Proof.
  induction l as [|z l IH]; intros Hin; simpl.
  - by apply elem_of_nil in Hin.
  - destruct (decide (z = x)) as [->|Hne].
    + exists l. split; [done|]. intros y. by rewrite count_cons.
    + apply elem_of_cons in Hin as [->|Hin]; [done|].
      destruct (IH Hin) as (l' & -> & Hc). exists (z :: l'). split; [done|].
      intros y. rewrite !count_cons, Hc. lia.
Qed.

Lemma list_remove_Raise (x : str) (l : list str) :
  x ∉ l → list_remove x l = Raise ValueError.
Proof.
  induction l as [|z l IH]; simpl; [done|].
  rewrite not_elem_of_cons. intros [Hne Hin].
  rewrite decide_False by congruence. by rewrite IH.
Qed.

Lemma find_unit_rules_eq (nts : list str) (nt : str) (rules : list str)
    (units : list (str * str)) :
  foldl (fun units rule =>
           if mem rule nts then units ++ [(nt, rule)] else units) units rules
  = units ++ map (pair nt) (filter (fun rule => rule ∈ nts) rules).
Proof.
  revert units. induction rules as [|rule rules IH]; intros units; simpl.
  - by rewrite app_nil_r.
  - rewrite IH, filter_cons. destruct (mem rule nts) eqn:E.
    + apply mem_true in E. rewrite decide_True by done. by rewrite <- app_assoc.
    + apply mem_false in E. by rewrite decide_False.
Qed.

Lemma find_unit_productions_eq (h : heap) (self : CFG) :
  unit_productions (find_unit_productions h self)
  = unit_productions self ++ unit_pairs h (non_terminals self) (productions self).
Proof.
  unfold find_unit_productions; simpl.
  generalize (unit_productions self) as units.
  induction (productions self) as [|[nt l] d IH]; intros units; simpl.
  - by rewrite app_nil_r.
  - rewrite IH, find_unit_rules_eq. by rewrite <- app_assoc.
Qed.

Lemma count_map_pair (k A B : str) (l : list str) :
  count (A, B) (map (pair k) l) = if decide (k = A) then count B l else 0.
Proof.
  induction l as [|x l IH]; simpl.
  - rewrite !count_nil. by destruct (decide (k = A)).
  - rewrite !count_cons, IH. destruct (decide (k = A)) as [->|Hne].
    + destruct (decide (x = B)) as [->|Hx].
      * by rewrite decide_True.
      * by rewrite decide_False by congruence.
    + by rewrite decide_False by congruence.
Qed.

Lemma count_filter_le (P : str → Prop) `{∀ x, Decision (P x)} (B : str)
    (l : list str) :
  count B (filter P l) = if decide (P B) then count B l else 0.
Proof.
  induction l as [|x l IH]; simpl.
  - rewrite !count_nil. by destruct (decide (P B)).
  - rewrite filter_cons. destruct (decide (P x)) as [Hx|Hx].
    + rewrite !count_cons, IH. destruct (decide (P B)); [done|].
      rewrite decide_False; [done | by intros ->].
    + rewrite IH, count_cons. destruct (decide (P B)); [|done].
      rewrite decide_False; [done | by intros ->].
Qed.

Lemma count_unit_pairs (h : heap) (nts : list str) (d : list (str * loc))
    (A B : str) :
  NoDup (keys d) →
  count (A, B) (unit_pairs h nts d)
  = match dict_get d A with
    | Some l => if decide (B ∈ nts) then count B (deref h l) else 0
    | None => 0
    end.
Proof.
  induction d as [|[k l] d IH]; intros Hnd; simpl; [done|].
  apply NoDup_cons in Hnd as [Hk Hnd].
  rewrite count_app, count_map_pair, count_filter_le, (IH Hnd).
  destruct (decide (k = A)) as [->|Hne]; [|done].
  assert (dict_get d A = None) as -> by by apply dict_get_None.
  lia.
Qed.

Lemma elem_of_unit_pairs (h : heap) (nts : list str) (d : list (str * loc))
    (A B : str) :
  (A, B) ∈ unit_pairs h nts d ↔ ∃ l, (A, l) ∈ d ∧ B ∈ deref h l ∧ B ∈ nts.
Proof.
  unfold unit_pairs. rewrite list_elem_of_In, in_flat_map. split.
  - intros ([k l] & Hin & Hp). simpl in Hp.
    apply list_elem_of_In, list_elem_of_fmap in Hp as (r & [= -> ->] & Hr).
    apply list_elem_of_filter in Hr as [? ?].
    exists l. by rewrite list_elem_of_In.
  - intros (l & Hin & HB & Hn). exists (A, l). split; [by apply list_elem_of_In|].
    simpl. apply list_elem_of_In, list_elem_of_fmap. exists B. split; [done|].
    by apply list_elem_of_filter.
Qed.

Lemma dict_get_inj (d : list (str * loc)) (A A' : str) (l : loc) :
  NoDup (map snd d) → dict_get d A = Some l → dict_get d A' = Some l → A = A'.
Proof.
  intros Hnd HA HA'.
  apply dict_get_Some_elem, list_elem_of_lookup in HA as [i Hi].
  apply dict_get_Some_elem, list_elem_of_lookup in HA' as [j Hj].
  assert (i = j) as ->.
  { apply (NoDup_lookup (map snd d) i j l Hnd).
    - by rewrite list_lookup_fmap, Hi.
    - by rewrite list_lookup_fmap, Hj. }
  congruence.
Qed.

Lemma dict_get_valid (h : heap) (d : list (str * loc)) (A : str) (l : loc) :
  valid h d → dict_get d A = Some l → l < length h.
Proof.
  intros Hv HA. apply dict_get_Some_elem in HA.
  unfold valid in Hv. rewrite Forall_forall in Hv. apply (Hv _ HA).
Qed.

Lemma dict_get_snd (d : list (str * loc)) (A : str) (l : loc) :
  dict_get d A = Some l → l ∈ map snd d.
Proof.
  intros HA. apply dict_get_Some_elem in HA.
  apply list_elem_of_fmap. by exists (A, l).
Qed.

(** One round of the substitution loop, when the alternative to remove is
    there: the list object of [A] loses its first [B] and gains what the
    list object of [B] holds at that moment. *)
Lemma substitute_one_Ok (self : CFG) (h : heap) (A B : str) (lA lB : loc) :
  dict_get (productions self) A = Some lA →
  dict_get (productions self) B = Some lB →
  lA < length h → B ∈ deref h lA →
  ∃ rules,
    list_remove B (deref h lA) = Ok rules
    ∧ (∀ y, count y (deref h lA) = (if decide (B = y) then 1 else 0) + count y rules)
    ∧ substitute_one self h (A, B)
      = Ok (<[lA := rules ++ (if decide (lA = lB) then rules else deref h lB)]> h).
Proof.
  intros HA HB Hl Hin.
  destruct (list_remove_Ok B (deref h lA) Hin) as (rules & Hrm & Hc).
  exists rules. split_and!; [done..|].
  unfold substitute_one, getitem. rewrite HA, HB. simpl. rewrite Hrm. simpl.
  rewrite list_insert_insert_eq, deref_insert_eq by done.
  destruct (decide (lA = lB)) as [<-|Hne].
  - by rewrite deref_insert_eq.
  - by rewrite deref_insert_ne.
Qed.

Section substitute.
Variable self : CFG.
Local Abbreviation d := (productions self).

Lemma substitute_one_enough (h : heap) (A B : str) (ps : list (str * str)) :
  own_lists h d → closed_pairs self ((A, B) :: ps) → enough self h ((A, B) :: ps) →
  ∃ h' lA,
    substitute_one self h (A, B) = Ok h'
    ∧ dict_get d A = Some lA ∧ B ∈ deref h lA
    ∧ length h' = length h ∧ enough self h' ps
    ∧ ∀ l, l ≠ lA → deref h' l = deref h l.
Proof.
  intros (Hk & Hl & Hv) Hcl Hen.
  destruct (Hcl A B) as [HA HB]; [apply list_elem_of_here|].
  apply dict_get_is_Some in HA as [lA HA]. apply dict_get_is_Some in HB as [lB HB].
  assert (B ∈ deref h lA) as Hin.
  { apply count_pos. specialize (Hen A B lA HA).
    rewrite count_cons, decide_True in Hen by done. lia. }
  pose proof (dict_get_valid h d A lA Hv HA) as HlA.
  destruct (substitute_one_Ok self h A B lA lB HA HB HlA Hin)
    as (rules & _ & Hc & ->).
  eexists _, lA. split_and!; [done..|by rewrite length_insert| |].
  - intros A' B' l' HA'. destruct (decide (l' = lA)) as [->|Hne].
    + assert (A' = A) as -> by (by eapply dict_get_inj).
      rewrite deref_insert_eq, count_app by done.
      specialize (Hen A B' lA HA). rewrite count_cons, Hc in Hen.
      destruct (decide (B = B')) as [->|HBB].
      * rewrite decide_True in Hen by done. lia.
      * rewrite decide_False in Hen by congruence. simpl in Hen. lia.
    + rewrite deref_insert_ne by done.
      specialize (Hen A' B' l' HA'). rewrite count_cons in Hen.
      rewrite decide_False in Hen; [done|]. intros [= -> ->]. congruence.
  - intros l Hne. by rewrite deref_insert_ne.
Qed.

Lemma own_lists_length (h h' : heap) :
  length h' = length h → own_lists h d → own_lists h' d.
Proof. intros Hlen (? & ? & Hv). split_and!; [done..|]. unfold valid. by rewrite Hlen. Qed.

(** The loop gets through every prefix of the pending pairs. *)
Lemma substitute_loop_prefix (ps1 ps2 : list (str * str)) :
  ∀ h : heap,
    own_lists h d → closed_pairs self (ps1 ++ ps2) → enough self h (ps1 ++ ps2) →
    ∃ h1,
      substitute_loop self h ps1 = Ok h1
      ∧ length h1 = length h ∧ enough self h1 ps2
      ∧ ∀ l, l ∉ map snd d → deref h1 l = deref h l.
Proof.
  induction ps1 as [|[A B] ps1 IH]; intros h Hown Hcl Hen.
  - by exists h.
  - cbn [substitute_loop].
    destruct (substitute_one_enough h A B (ps1 ++ ps2) Hown Hcl Hen)
      as (h' & lA & -> & HA & _ & Hlen & Hen' & Hfr).
    simpl. destruct (IH h') as (h1 & -> & Hlen1 & Hen1 & Hfr1).
    + by apply (own_lists_length h).
    + intros A' B' Hin. apply Hcl. by apply list_elem_of_further.
    + done.
    + exists h1. split_and!; [done|congruence|done|].
      intros l Hl. rewrite Hfr1 by done. apply Hfr.
      intros ->. apply Hl. by eapply dict_get_snd.
Qed.
End substitute.

Lemma unit_pairs_enough (self : CFG) (h : heap) (nts : list str) :
  NoDup (keys (productions self)) →
  enough self h (unit_pairs h nts (productions self)).
Proof.
  intros Hnd A B l HA. rewrite count_unit_pairs, HA by done.
  destruct (decide (B ∈ nts)); lia.
Qed.

Lemma unit_pairs_closed (self : CFG) (h : heap) (nts : list str) :
  (∀ x, x ∈ nts → x ∈ keys (productions self)) →
  closed_pairs self (unit_pairs h nts (productions self)).
Proof.
  intros Hsub A B Hin. apply elem_of_unit_pairs in Hin as (l & Hin & _ & HB).
  split; [|by apply Hsub]. apply list_elem_of_fmap. by exists (A, l).
Qed.

Lemma find_unit_productions_pairs (h : heap) (self : CFG) :
  before_units self →
  unit_productions (find_unit_productions h self)
  = unit_pairs h (non_terminals self) (productions self).
Proof. intros [Hu _]. by rewrite find_unit_productions_eq, Hu. Qed.

(** The unit stage on distinct list objects never raises, and touches
    only the list objects of its dict. *)
Lemma remove_unit_productions_Ok (h : heap) (self : CFG) :
  own_lists h (productions self) → before_units self →
  ∃ h',
    remove_unit_productions h self = Ok (h', find_unit_productions h self)
    ∧ length h' = length h
    ∧ ∀ l, l ∉ map snd (productions self) → deref h' l = deref h l.
Proof.
  intros Hown Hb. unfold remove_unit_productions, substitute_unit_productions.
  rewrite find_unit_productions_pairs by done.
  set (self' := find_unit_productions h self).
  destruct (substitute_loop_prefix self'
              (unit_pairs h (non_terminals self) (productions self)) [] h)
    as (h' & -> & Hlen & _ & Hfr).
  - done.
  - rewrite app_nil_r. apply (unit_pairs_closed self'), Hb.
  - rewrite app_nil_r. apply (unit_pairs_enough self'), Hown.
  - by exists h'.
Qed.

(** At the moment a recorded pair is reached, the loop has come that far
    without raising and the alternative to remove is in the list. *)
Lemma remove_unit_productions_moment (h : heap) (self : CFG)
    (ps1 ps2 : list (str * str)) (A B : str) :
  own_lists h (productions self) → before_units self →
  unit_productions (find_unit_productions h self) = ps1 ++ (A, B) :: ps2 →
  B ∈ keys (productions self)
  ∧ ∃ h1 l,
      substitute_loop (find_unit_productions h self) h ps1 = Ok h1
      ∧ dict_get (productions self) A = Some l ∧ B ∈ deref h1 l.
Proof.
  intros Hown Hb Hps.
  set (self' := find_unit_productions h self) in *.
  assert (closed_pairs self' (ps1 ++ (A, B) :: ps2)) as Hcl.
  { rewrite <- Hps. unfold self'. rewrite find_unit_productions_pairs by done.
    apply (unit_pairs_closed self'), Hb. }
  assert (enough self' h (ps1 ++ (A, B) :: ps2)) as Hen.
  { rewrite <- Hps. unfold self'. rewrite find_unit_productions_pairs by done.
    apply (unit_pairs_enough self'), Hown. }
  destruct (Hcl A B) as [HA HB].
  { apply elem_of_app. right. apply list_elem_of_here. }
  split; [done|].
  destruct (substitute_loop_prefix self' ps1 ((A, B) :: ps2) h Hown Hcl Hen)
    as (h1 & Hh1 & _ & Hen1 & _).
  apply dict_get_is_Some in HA as [l HA].
  exists h1, l. split_and!; [done..|].
  apply count_pos. specialize (Hen1 A B l HA).
  rewrite count_cons, decide_True in Hen1 by done. lia.
Qed.

(** ** The useless-symbol stage and the pipeline *)

Section useless_facts.
Variable islower : char → bool.

Lemma find_useful_rules_elem (nts : list str) (nt : str) (rules useful : list str)
    (x : str) :
  x ∈ foldl (fun useful rule =>
               if forallb (fun symbol => islower symbol || mem [symbol] nts) rule
               then set_add nt useful else useful) useful rules
  ↔ x ∈ useful ∨ (x = nt ∧ ∃ rule, rule ∈ rules ∧ usable islower nts rule = true).
Proof.
  revert useful. induction rules as [|rule rules IH]; intros useful; simpl.
  - split; [by left | intros [?|[_ (? & H & _)]]; [done | by apply elem_of_nil in H]].
  - rewrite IH. fold (usable islower nts rule). destruct (usable islower nts rule) eqn:E.
    + rewrite elem_of_set_add. split.
      * intros [[?| ->]|[-> (r & ? & ?)]]; [by left | right..].
        -- split; [done|]. exists rule. split; [apply list_elem_of_here | done].
        -- split; [done|]. exists r. split; [by apply list_elem_of_further | done].
      * intros [?|[-> (r & Hr & ?)]]; [by left; left|].
        left. by right.
    + split.
      * intros [?|[-> (r & ? & ?)]]; [by left | right].
        split; [done|]. exists r. split; [by apply list_elem_of_further | done].
      * intros [?|[-> (r & Hr & Hu)]]; [by left|].
        apply elem_of_cons in Hr as [->|Hr]; [congruence|].
        right. split; [done|]. by exists r.
Qed.

Lemma find_useful_symbols_elem (h : heap) (self : CFG) (x : str) :
  x ∈ useful_symbols (find_useful_symbols islower h self)
  ↔ x ∈ useful_symbols self
    ∨ ∃ l rule, (x, l) ∈ productions self ∧ rule ∈ deref h l
                ∧ usable islower (non_terminals self) rule = true.
Proof.
  unfold find_useful_symbols; simpl.
  generalize (useful_symbols self) as useful.
  induction (productions self) as [|[nt l] d IH]; intros useful; simpl.
  - split; [by left | intros [?|(? & ? & H & _)]; [done | by apply elem_of_nil in H]].
  - rewrite IH, find_useful_rules_elem. split.
    + intros [[?|[-> (r & ? & ?)]]|(l' & r & ? & ? & ?)]; [by left | right..].
      * exists l, r. split_and!; [apply list_elem_of_here | done..].
      * exists l', r. split_and!; [by apply list_elem_of_further | done..].
    + intros [?|(l' & r & Hin & ? & ?)]; [by left; left|].
      apply elem_of_cons in Hin as [[= -> ->]|Hin].
      * left. right. split; [done|]. by exists r.
      * right. by exists l', r.
Qed.

Lemma remove_useless_symbols_productions (h : heap) (self : CFG) :
  productions (remove_useless_symbols islower h self)
  = filter (fun kv => kv.1 ∈ useful_symbols (find_useful_symbols islower h self))
           (productions self).
Proof.
  unfold remove_useless_symbols; simpl.
  apply list_filter_iff. intros [k l]; simpl. unfold mem. apply bool_decide_spec.
Qed.

(** The pipeline on a new object never raises, keeps the store below its
    first new object as it was, and works on list objects of its own. *)
Lemma transform_Ok (h : heap) (d : list (str * loc)) :
  NoDup (keys d) → valid h d →
  ∃ h' self',
    transform islower h (CFG_init d) = Ok (h', self')
    ∧ ∀ l, l < length h → deref h' l = deref h l.
Proof.
  intros Hnd Hv. unfold transform.
  pose proof (remove_epsilon_own_lists h (CFG_init d) Hnd Hv) as Hown.
  assert (∀ l, l ∈ map snd (productions (remove_epsilon h (CFG_init d)).2)
               → length h ≤ l) as Hnew.
  { unfold remove_epsilon. rewrite remove_epsilon_productions_eq by done. simpl.
    intros l Hl. rewrite snd_zip in Hl.
    - apply elem_of_seq in Hl. lia.
    - unfold keys. rewrite length_map, length_seq. lia. }
  assert ((remove_epsilon h (CFG_init d)).1
          = h ++ map (fun kv => new_rules_of
                        (epsilon_non_terminals (find_epsilon_productions h (CFG_init d)))
                        (deref h kv.2)) d) as Hh1.
  { unfold remove_epsilon. by rewrite remove_epsilon_productions_eq. }
  assert (before_units (remove_epsilon h (CFG_init d)).2) as Hb.
  { unfold remove_epsilon. rewrite remove_epsilon_productions_eq by done.
    split; [done|]. simpl. intros x Hx.
    rewrite keys_zip; [done|]. unfold keys. by rewrite length_map, length_seq. }
  destruct (remove_epsilon h (CFG_init d)) as [h1 self1]; simpl in *.
  destruct (remove_unit_productions_Ok h1 self1 Hown Hb) as (h2 & -> & Hlen & Hfr).
  simpl. eexists _, _. split; [done|].
  intros l Hl. rewrite Hfr.
  - subst h1. by apply deref_app_l.
  - intros Hin. apply Hnew in Hin. lia.
Qed.
End useless_facts.

(** ** PDAtoCFG.convert *)

Lemma dict_get_add_production (d : list (str * list str)) (l r k : str) :
  dict_get (add_production d l r) k
  = if decide (l = k) then Some (default [] (dict_get d l) ++ [r])
    else dict_get d k.
Proof.
  unfold add_production. destruct (dict_get d l) as [alts0|] eqn:E.
  - rewrite dict_get_set, E. done.
  - rewrite !dict_get_set. rewrite (decide_True (P := l = l)) by done. simpl.
    destruct (decide (l = k)); done.
Qed.

Lemma has_add_production (d : list (str * list str)) (l r lhs rhs : str) :
  has (add_production d l r) lhs rhs ↔ has d lhs rhs ∨ (lhs = l ∧ rhs = r).
Proof.
  unfold has. rewrite dict_get_add_production.
  destruct (decide (l = lhs)) as [->|Hne].
  - split.
    + intros (alts & [= <-] & Hin). apply elem_of_app in Hin as [Hin|Hin].
      * left. destruct (dict_get d lhs) as [alts0|]; simpl in Hin.
        -- by exists alts0.
        -- by apply elem_of_nil in Hin.
      * apply list_elem_of_singleton in Hin. by right.
    + intros [(alts & -> & ?)|[_ ->]]; eexists; (split; [done|]);
        apply elem_of_app; [by left | right; apply list_elem_of_here].
  - split; [by left | intros [?|[-> _]]; done].
Qed.

Lemma size_dict_set_Some (d : list (str * list str)) (k : str) (old v : list str) :
  dict_get d k = Some old → size (dict_set d k v) + length old = size d + length v.
Proof.
  unfold size. induction d as [|[k' v'] d IH]; simpl; [done|].
  destruct (decide (k' = k)) as [->|Hne]; simpl.
  - intros [= ->]. lia.
  - intros H. specialize (IH H). lia.
Qed.

Lemma size_dict_set_None (d : list (str * list str)) (k : str) (v : list str) :
  dict_get d k = None → size (dict_set d k v) = size d + length v.
Proof.
  unfold size. induction d as [|[k' v'] d IH]; simpl; [lia|].
  destruct (decide (k' = k)) as [->|Hne]; simpl; [done|].
  intros H. specialize (IH H). lia.
Qed.

Lemma size_add_production (d : list (str * list str)) (l r : str) :
  size (add_production d l r) = S (size d).
Proof.
  unfold add_production. destruct (dict_get d l) as [alts0|] eqn:E.
  - rewrite E. cbn [default from_option id].
    pose proof (size_dict_set_Some d l alts0 (alts0 ++ [r]) E) as H.
    rewrite length_app in H. cbn [length] in H. lia.
  - pose proof (size_dict_set_None d l [] E) as H0.
    assert (dict_get (dict_set d l []) l = Some []) as E'.
    { rewrite dict_get_set. by rewrite decide_True. }
    rewrite E'. cbn [default from_option id app].
    pose proof (size_dict_set_Some _ l [] [r] E') as H. cbn [length] in *. lia.
Qed.


Lemma convert_inner_has (p a X r ns : str) (ixs : list nat)
    (d : list (str * list str)) (lhs rhs : str) :
  has (foldl (fun prods i =>
                let '(lhs, rhs) := production_at p a X r ns i in
                add_production prods lhs rhs) d ixs) lhs rhs
  ↔ has d lhs rhs ∨ ∃ i, i ∈ ixs ∧ production_at p a X r ns i = (lhs, rhs).
Proof.
  revert d. induction ixs as [|i ixs IH]; intros d; cbn [foldl].
  - split; [by left | intros [?|(? & H & _)]; [done | by apply elem_of_nil in H]].
  - rewrite IH. destruct (production_at p a X r ns i) as [l' r'] eqn:E.
    rewrite has_add_production. split.
    + intros [[?|[-> ->]]|(j & ? & ?)]; [by left | right..].
      * exists i. split; [apply list_elem_of_here | done].
      * exists j. split; [by apply list_elem_of_further | done].
    + intros [?|(j & Hj & Hp)]; [by left; left|].
      apply elem_of_cons in Hj as [->|Hj].
      * left. right. rewrite E in Hp. by simplify_eq.
      * right. by exists j.
Qed.

Lemma convert_inner_size (p a X r ns : str) (ixs : list nat)
    (d : list (str * list str)) :
  size (foldl (fun prods i =>
                 let '(lhs, rhs) := production_at p a X r ns i in
                 add_production prods lhs rhs) d ixs)
  = size d + length ixs.
Proof.
  revert d. induction ixs as [|i ixs IH]; intros d; cbn [foldl length]; [lia|].
  rewrite IH. destruct (production_at p a X r ns i) as [l' r'].
  rewrite size_add_production. lia.
Qed.

Lemma convert_moves_has (p a X : str) (next_states : list (str * str))
    (d : list (str * list str)) (lhs rhs : str) :
  has (foldl (fun prods '(next_state, new_stack) =>
                foldl (fun prods i =>
                         let '(lhs, rhs) :=
                           production_at p a X next_state new_stack i in
                         add_production prods lhs rhs)
                      prods (seq 0 (length new_stack + 1)))
             d next_states) lhs rhs
  ↔ has d lhs rhs
    ∨ ∃ r ns i, (r, ns) ∈ next_states ∧ i ≤ length ns
                ∧ production_at p a X r ns i = (lhs, rhs).
Proof.
  revert d. induction next_states as [|[r ns] nexts IH]; intros d; cbn [foldl].
  - split; [by left | intros [?|(? & ? & ? & H & _)]; [done | by apply elem_of_nil in H]].
  - rewrite IH, convert_inner_has. split.
    + intros [[?|(i & Hi & ?)]|(r' & ns' & i & ? & ? & ?)]; [by left | right..].
      * exists r, ns, i. apply elem_of_seq in Hi.
        split_and!; [apply list_elem_of_here | lia | done].
      * exists r', ns', i. split_and!; [by apply list_elem_of_further | done..].
    + intros [?|(r' & ns' & i & Hin & Hi & ?)]; [by left; left|].
      apply elem_of_cons in Hin as [[= -> ->]|Hin].
      * left. right. exists i. split; [|done]. apply elem_of_seq. lia.
      * right. by exists r', ns', i.
Qed.

Lemma convert_has (self : PDAtoCFG) (lhs rhs : str) :
  has (convert self) lhs rhs
  ↔ has (cfg_productions self) lhs rhs
    ∨ ∃ p a X r ns i, move_of (transitions self) p a X r ns ∧ i ≤ length ns
                      ∧ production_at p a X r ns i = (lhs, rhs).
Proof.
  unfold convert. generalize (cfg_productions self) as d.
  induction (transitions self) as [|[[[p a] X] nexts] ts IH]; intros d; cbn [foldl].
  - split; [by left|]. intros [?|(? & ? & ? & ? & ? & ? & (? & H & _) & _)]; [done|].
    by apply elem_of_nil in H.
  - rewrite IH, convert_moves_has. split.
    + intros [[?|(r & ns & i & ? & ? & ?)]|(p' & a' & X' & r & ns & i & Hm & ? & ?)];
        [by left | right..].
      * exists p, a, X, r, ns, i. split_and!; [|done..].
        exists nexts. split; [apply list_elem_of_here | done].
      * exists p', a', X', r, ns, i. split_and!; [|done..].
        destruct Hm as (nx & ? & ?). exists nx. split; [by apply list_elem_of_further | done].
    + intros [?|(p' & a' & X' & r & ns & i & (nx & Hin & ?) & ? & ?)]; [by left; left|].
      apply elem_of_cons in Hin as [[= -> -> -> ->]|Hin].
      * left. right. by exists r, ns, i.
      * right. exists p', a', X', r, ns, i. split_and!; [|done..]. by exists nx.
Qed.

(** The number of productions added: [len(new_stack) + 1] per move. *)
Lemma convert_size (self : PDAtoCFG) :
  size (convert self)
  = size (cfg_productions self)
    + sum_list (map (fun t => sum_list (map (fun m => length m.2 + 1) t.2))
                    (transitions self)).
Proof.
  unfold convert. generalize (cfg_productions self) as d.
  induction (transitions self) as [|[[[p a] X] nexts] ts IH]; intros d.
  - cbn [foldl map sum_list_with id]. lia.
  - cbn [foldl map sum_list_with id snd]. rewrite IH. clear IH.
    rewrite Nat.add_assoc. f_equal.
    revert d. induction nexts as [|[r ns] nexts IH]; intros d.
    + cbn [foldl map sum_list_with id]. lia.
    + cbn [foldl map sum_list_with id snd]. rewrite IH, convert_inner_size, length_seq. lia.
Qed.

(** ** Grammars as values: what the stages compute *)

Lemma elem_of_contents (h : heap) (d : list (str * loc)) (A : str) (alts : list str) :
  (A, alts) ∈ contents h d ↔ ∃ l, (A, l) ∈ d ∧ alts = deref h l.
Proof.
  unfold contents. rewrite list_elem_of_fmap. split.
  - intros ([k l] & [= -> ->] & Hin). by exists l.
  - intros (l & Hin & ->). by exists (A, l).
Qed.

Lemma elem_of_load (g : list (str * list str)) (A : str) (alts : list str) :
  (A, alts) ∈ g ↔ ∃ l, (A, l) ∈ (load g).2 ∧ alts = deref (load g).1 l.
Proof. by rewrite <- elem_of_contents, load_contents. Qed.

Lemma keys_contents (h : heap) (d : list (str * loc)) : keys (contents h d) = keys d.
Proof. unfold keys, contents. rewrite <- list_fmap_compose. done. Qed.

Lemma keys_load (g : list (str * list str)) : keys (load g).2 = keys g.
Proof. by rewrite <- (keys_contents (load g).1), load_contents. Qed.

Lemma elem_of_epsilon_set (g : list (str * list str)) (A : str) :
  A ∈ epsilon_set g ↔ ∃ alts, (A, alts) ∈ g ∧ epsilon ∈ alts.
Proof.
  unfold epsilon_set. rewrite find_epsilon_productions_elem. simpl. split.
  - intros [H|(l & Hin & He)]; [by apply elem_of_nil in H|].
    exists (deref (load g).1 l). split; [|done]. apply elem_of_load. by exists l.
  - intros (alts & Hin & He). right. apply elem_of_load in Hin as (l & Hin & ->).
    by exists l.
Qed.

Lemma eliminate_epsilon_eq (g : list (str * list str)) :
  NoDup (keys g) →
  eliminate_epsilon g
  = map (fun '(A, alts) =>
           (A, filter (fun rule => rule ≠ epsilon) alts
               ++ flat_map (generate_new_rules (epsilon_set g)) alts)) g.
Proof.
  intros Hnd. unfold eliminate_epsilon.
  destruct (load_own_lists g Hnd) as (Hk & _ & Hv).
  pose proof (remove_epsilon_contents (load g).1 (CFG_init (load g).2) Hk Hv) as H.
  cbn [productions CFG_init] in H. rewrite load_contents in H.
  fold (epsilon_set g) in H.
  destruct (load g) as [h d]; simpl in *.
  destruct (remove_epsilon h (CFG_init d)) as [h' self']; simpl in *.
  rewrite H. apply map_ext. intros [A alts]. by rewrite new_rules_of_eq.
Qed.

(** * The claims *)

(** ** C1: the set of nullable nonterminals *)

(** C1, as stated, fails: in [A -> BC], [B -> ε], [C -> ε] the nonterminal
    [A] belongs to the smallest closed set, but the set computed by the ε
    stage does not contain it and no alternative of [A] loses both symbols. *)
Lemma nullable_closure_not_computed :
  nullable grammar_ABC (py "A")
  ∧ (py "A" ∉ epsilon_set grammar_ABC)
  ∧ eliminate_epsilon grammar_ABC
    = [(py "A", [py "BC"; py "C"; py "B"]); (py "B", []); (py "C", [])].
Proof.
  split_and!.
  - intros S HS. apply (HS (py "A") [py "BC"]).
    + apply list_elem_of_here.
    + right. exists (py "BC"). split; [apply list_elem_of_here|].
      repeat constructor.
      * apply (HS (py "B") [epsilon]); [|left; apply list_elem_of_here].
        apply list_elem_of_further, list_elem_of_here.
      * apply (HS (py "C") [epsilon]); [|left; apply list_elem_of_here].
        do 2 apply list_elem_of_further. apply list_elem_of_here.
  - by_compute.
  - vm_compute. reflexivity.
Qed.

(** C1, amended: the ε stage computes the set of the nonterminals that
    have a literal ε alternative, in one scan and without closing it under
    alternatives made of nullable symbols; for [A -> BC], [B -> ε],
    [C -> ε] the set is [{B, C}]. *)
Theorem epsilon_set_is_direct :
  (∀ g A, A ∈ epsilon_set g ↔ ∃ alts, (A, alts) ∈ g ∧ epsilon ∈ alts)
  ∧ epsilon_set grammar_ABC = [py "B"; py "C"].
Proof. split; [apply elem_of_epsilon_set | vm_compute; reflexivity]. Qed.

(** ** C5: the new alternatives of the ε stage *)

(** The ε stage on [S -> BaC | BB], [B -> ε | b], [C -> ε | c]. *)
Lemma eliminate_epsilon_two_nullable :
  eliminate_epsilon grammar_two_nullable
  = [(py "S", [py "BaC"; py "BB"; py "aC"; py "Ba"; py "B"; py "B"]);
     (py "B", [py "b"]);
     (py "C", [py "c"])].
Proof. vm_compute. reflexivity. Qed.

(** C5, as stated, fails: of [BaC], whose positions 0 and 2 are nullable,
    the alternative [a] with both positions deleted is not emitted, and the
    two deletions of [BB] leave [B] twice. *)
Lemma not_every_subset_nor_deduplicated :
  ¬ emits_every_subset grammar_two_nullable (eliminate_epsilon grammar_two_nullable)
  ∧ ¬ deduplicated (eliminate_epsilon grammar_two_nullable).
Proof.
  rewrite eliminate_epsilon_two_nullable. split.
  - intros H.
    destruct (H (py "S") [py "BaC"; py "BB"] (py "BaC") [0; 2])
      as (alts' & Hin & Hd).
    + apply list_elem_of_here.
    + apply list_elem_of_here.
    + done.
    + repeat constructor.
      * exists 66%N. split; [done|]. intros S HS.
        apply (HS (py "B") [epsilon; py "b"]); [|left; apply list_elem_of_here].
        apply list_elem_of_further, list_elem_of_here.
      * exists 67%N. split; [done|]. intros S HS.
        apply (HS (py "C") [epsilon; py "c"]); [|left; apply list_elem_of_here].
        do 2 apply list_elem_of_further. apply list_elem_of_here.
    + rewrite !elem_of_cons, elem_of_nil in Hin.
      destruct Hin as [Hin|[Hin|[Hin|[]]]]; vm_compute in Hin; simplify_eq.
      revert Hd. by_compute.
  - intros H.
    assert (NoDup [py "BaC"; py "BB"; py "aC"; py "Ba"; py "B"; py "B"]) as Hnd.
    { apply (H (py "S")). apply list_elem_of_here. }
    revert Hnd. by_compute.
Qed.

(** C5, amended: for every alternative of every nonterminal the ε stage
    emits one new alternative for each single position that holds a
    nonterminal with a literal ε alternative, with that one position
    deleted; the new alternatives follow the kept (non-ε) alternatives of
    the nonterminal and are not deduplicated. *)
Theorem eliminate_epsilon_single_deletions (g : list (str * list str)) :
  NoDup (keys g) →
  eliminate_epsilon g
  = map (fun '(A, alts) =>
           (A, filter (fun rule => rule ≠ epsilon) alts
               ++ flat_map (generate_new_rules (epsilon_set g)) alts)) g
  ∧ ∀ rule,
      length (generate_new_rules (epsilon_set g) rule)
      = length (filter (fun c => [c] ∈ epsilon_set g) rule)
      ∧ ∀ r, r ∈ generate_new_rules (epsilon_set g) rule
             ↔ ∃ i, nullable_at (epsilon_set g) rule i
                    ∧ r = take i rule ++ drop (S i) rule.
Proof.
  intros Hnd. split; [by apply eliminate_epsilon_eq|].
  intros rule. split; [apply generate_new_rules_length|].
  intros r. apply elem_of_generate_new_rules.
Qed.

Lemma eliminate_epsilon_single_deletions_witness :
  NoDup (keys grammar_two_nullable)
  ∧ eliminate_epsilon grammar_two_nullable
    = map (fun '(A, alts) =>
             (A, filter (fun rule => rule ≠ epsilon) alts
                 ++ flat_map (generate_new_rules (epsilon_set grammar_two_nullable))
                             alts)) grammar_two_nullable.
Proof.
  assert (NoDup (keys grammar_two_nullable)) as H by by_compute.
  split; [exact H|].
  exact (proj1 (eliminate_epsilon_single_deletions grammar_two_nullable H)).
Defined.

(** ** C6: empty right-hand sides after the ε stage *)

(** C6 on [grammar_unit_nullable]: deleting the only symbol of [A -> B]
    and of [C -> B] leaves the empty string as an alternative of [A] and of
    [C], two nonterminals of which at most one is the start symbol; both
    empty alternatives are still there after the whole pipeline. *)
Theorem epsilon_stage_emits_empty_alternative :
  eliminate_epsilon grammar_unit_nullable
  = [(py "S", [py "AC"]);
     (py "A", [py "B"; []]);
     (py "C", [py "B"; []]);
     (py "B", [py "b"])]
  ∧ normalize islower_latin_greek grammar_unit_nullable
    = Ok [(py "S", [py "AC"]);
          (py "A", [[]; py "b"]);
          (py "C", [[]; py "b"]);
          (py "B", [py "b"])].
Proof. split; vm_compute; reflexivity. Qed.

(** The literal marker itself does not survive the ε stage when no
    alternative of the input mixes it with other symbols. *)
Lemma eliminate_epsilon_no_marker (g : list (str * list str)) :
  NoDup (keys g) →
  (∀ A alts rule, (A, alts) ∈ g → rule ∈ alts → 949%N ∈ rule → rule = epsilon) →
  ∀ A alts, (A, alts) ∈ eliminate_epsilon g → epsilon ∉ alts.
Proof.
  intros Hnd Hwf A alts Hin He. rewrite eliminate_epsilon_eq in Hin by done.
  apply list_elem_of_fmap in Hin as ([A' alts0] & [= -> ->] & Hin).
  apply elem_of_app in He as [He|He].
  - apply list_elem_of_filter in He as [He _]. done.
  - apply list_elem_of_In, in_flat_map in He as (rule & Hrule & He).
    apply list_elem_of_In in Hrule, He.
    apply elem_of_generate_new_rules in He as (i & (c & Hi & _) & He).
    assert (949%N ∈ rule) as Hm.
    { assert (949%N ∈ take i rule ++ drop (S i) rule) as H'
        by (rewrite <- He; apply list_elem_of_here).
      apply elem_of_app in H' as [H'|H'].
      - by apply (subseteq_take i rule).
      - by apply (subseteq_drop (S i) rule). }
    pose proof (Hwf A' alts0 rule Hin Hrule Hm) as ->.
    apply lookup_lt_Some in Hi as Hlt. simpl in Hlt.
    assert (i = 0) as -> by lia. discriminate He.
Qed.

(** ** C3: the useless-symbol stage *)

Lemma existsb_elem {A} (f : A → bool) (l : list A) :
  existsb f l ↔ ∃ x, x ∈ l ∧ f x = true.
Proof.
  rewrite Is_true_true, existsb_exists. setoid_rewrite list_elem_of_In. done.
Qed.

Lemma contents_filter (h : heap) (P : str * loc → Prop) (Q : str * list str → Prop)
    `{∀ x, Decision (P x)} `{∀ x, Decision (Q x)} (d : list (str * loc)) :
  (∀ kv, kv ∈ d → P kv ↔ Q (kv.1, deref h kv.2)) →
  contents h (filter P d) = filter Q (contents h d).
Proof.
  induction d as [|[k l] d IH]; intros HPQ; [done|].
  rewrite filter_cons. cbn [contents map]. rewrite filter_cons.
  pose proof (HPQ (k, l) (list_elem_of_here _ _)) as Hkl. simpl in Hkl.
  assert (contents h (filter P d) = filter Q (contents h d)) as IH'.
  { apply IH. intros kv Hkv. apply HPQ. by apply list_elem_of_further. }
  unfold contents in *. simpl.
  destruct (decide (P (k, l))) as [HP|HP].
  - rewrite decide_True by (by apply Hkl). simpl. by rewrite IH'.
  - rewrite decide_False by (by rewrite <- Hkl). done.
Qed.

Section pruning.
Variable islower : char → bool.

(** What the stage keeps: the keys with an alternative that passes the
    test of line 98, with all their alternatives. *)
Lemma remove_useless_symbols_contents (h : heap) (self : CFG) :
  NoDup (keys (productions self)) → useful_symbols self = [] →
  contents h (productions (remove_useless_symbols islower h self))
  = filter (fun kv => existsb (usable islower (non_terminals self)) kv.2)
           (contents h (productions self)).
Proof.
  intros Hnd Hu. rewrite remove_useless_symbols_productions.
  apply contents_filter. intros [k l] Hkl. cbn [fst snd].
  rewrite find_useful_symbols_elem, Hu, existsb_elem. split.
  - intros [H|(l' & rule & Hin & Hr & Hus)]; [by apply elem_of_nil in H|].
    assert (l' = l) as ->.
    { apply (dict_get_elem _ _ _ Hnd) in Hin, Hkl. congruence. }
    by exists rule.
  - intros (rule & Hr & Hus). right. by exists l, rule.
Qed.

Lemma prune_useless_eq (g : list (str * list str)) :
  NoDup (keys g) →
  prune_useless islower g
  = filter (fun kv => existsb (usable islower (keys g)) kv.2) g.
Proof.
  intros Hnd. unfold prune_useless.
  pose proof (remove_useless_symbols_contents (load g).1 (CFG_init (load g).2)) as H.
  cbn [productions CFG_init non_terminals useful_symbols] in H.
  rewrite keys_load, load_contents in H.
  destruct (load g) as [h d]. simpl in *. by apply H.
Qed.
End pruning.

(** C3, as stated, fails: the stage returns [grammar_useless] whole, with
    [X], which generates no terminal string, and [Y], which the start
    symbol [S] does not reach; and whether [S] stays depends on the case of
    the letter in its alternative. *)
Lemma useless_symbols_remain :
  prune_useless islower_latin_greek grammar_useless = grammar_useless
  ∧ reachable grammar_useless (py "S") (py "X")
  ∧ ¬ generating grammar_useless (py "X")
  ∧ generating grammar_useless (py "Y")
  ∧ ¬ reachable grammar_useless (py "S") (py "Y")
  ∧ prune_useless islower_latin_greek [(py "S", [py "a"])] = [(py "S", [py "a"])]
  ∧ prune_useless islower_latin_greek [(py "S", [py "A"])] = [].
Proof.
  split_and!; try (vm_compute; reflexivity).
  - intros S [Hstart Hstep].
    apply (Hstep (py "S") [py "a"; py "X"] (py "X") 88%N); [done|..].
    + apply list_elem_of_here.
    + apply list_elem_of_further, list_elem_of_here.
    + apply list_elem_of_here.
  - intros H. apply (H (fun s => s ≠ py "X")); [|done].
    intros A alts alt Hin Halt Hall.
    unfold grammar_useless in Hin. rewrite !elem_of_cons, elem_of_nil in Hin.
    destruct Hin as [Hin|[Hin|[Hin|[]]]]; simplify_eq; try done.
    apply list_elem_of_singleton in Halt as ->.
    apply Forall_cons in Hall as [Hx _]. apply Hx. by_compute.
  - intros S HS. apply (HS (py "Y") [py "b"] (py "b")).
    + do 2 apply list_elem_of_further. apply list_elem_of_here.
    + apply list_elem_of_here.
    + repeat constructor. intros Hb. exfalso. revert Hb. by_compute.
  - intros H.
    specialize (H (fun s => s = py "S" ∨ s = py "a" ∨ s = py "X")).
    destruct H as [H|[H|H]]; try discriminate H.
    split; [by left|]. intros A alts alt c HA Hin Halt Hc.
    unfold grammar_useless in Hin. rewrite !elem_of_cons, elem_of_nil in Hin.
    destruct Hin as [Hin|[Hin|[Hin|[]]]]; simplify_eq.
    + rewrite !elem_of_cons, elem_of_nil in Halt.
      destruct Halt as [->|[->|[]]]; apply list_elem_of_singleton in Hc as ->;
        [right; by left | right; by right].
    + apply list_elem_of_singleton in Halt as ->.
      apply list_elem_of_singleton in Hc as ->. right; by right.
    + destruct HA as [HA|[HA|HA]]; discriminate HA.
Qed.

(** C3, amended: the stage keeps exactly the nonterminals that have an
    alternative each character of which is lowercase ([str.islower]) or is
    a key of the grammar (the empty alternative passes), with all their
    alternatives and in the original order; neither reachability from a
    start symbol nor the generating fixpoint is computed, and the case of a
    character is what makes it a terminal. *)
Theorem prune_useless_keeps (islower : char → bool) (g : list (str * list str)) :
  NoDup (keys g) →
  prune_useless islower g
  = filter (fun kv => existsb (usable islower (keys g)) kv.2) g
  ∧ ∀ rule, usable islower (keys g) rule = true
            ↔ ∀ c, c ∈ rule → islower c = true ∨ [c] ∈ keys g.
Proof.
  intros Hnd. split; [by apply prune_useless_eq|].
  intros rule. unfold usable. rewrite forallb_forall.
  setoid_rewrite <- list_elem_of_In. setoid_rewrite orb_true_iff.
  by setoid_rewrite mem_true.
Qed.

Lemma prune_useless_keeps_witness :
  NoDup (keys grammar_useless)
  ∧ prune_useless islower_latin_greek grammar_useless
    = filter (fun kv => existsb (usable islower_latin_greek (keys grammar_useless)) kv.2)
             grammar_useless.
Proof.
  assert (NoDup (keys grammar_useless)) as H by by_compute.
  split; [exact H|].
  exact (proj1 (prune_useless_keeps islower_latin_greek grammar_useless H)).
Defined.

(** ** C4: the unit stage *)

Lemma substitute_loop_app (self : CFG) (ps1 ps2 : list (str * str)) (h : heap) :
  substitute_loop self h (ps1 ++ ps2)
  = h1 ← substitute_loop self h ps1; substitute_loop self h1 ps2.
Proof.
  revert h. induction ps1 as [|p ps1 IH]; intros h; [done|].
  cbn [app substitute_loop].
  destruct (substitute_one self h p) as [h'|e]; cbn [mbind result_bind]; [|done].
  apply IH.
Qed.

Lemma filter_complement_nil {A} (P : A → Prop) `{∀ x, Decision (P x)} (l : list A) :
  filter P l = [] → filter (fun x => ¬ P x) l = l.
Proof.
  induction l as [|x l IH]; [done|]. rewrite !filter_cons.
  destruct (decide (P x)) as [HP|HP]; [done|]. intros Hl.
  rewrite decide_True by done. by rewrite IH.
Qed.

Lemma flat_map_ext_elem {A B} (f g : A → list B) (l : list A) :
  (∀ x, x ∈ l → f x = g x) → flat_map f l = flat_map g l.
Proof.
  induction l as [|x l IH]; intros Hfg; simpl; [done|].
  rewrite Hfg by apply list_elem_of_here. f_equal.
  apply IH. intros y Hy. by apply Hfg, list_elem_of_further.
Qed.

(** Removing the first unit alternative of a list: the first occurrence
    of the first key is the first key. *)
Lemma list_remove_first_key (K : str → Prop) `{∀ x, Decision (K x)} (B : str)
    (R X U : list str) :
  filter K R = B :: U →
  ∃ R', list_remove B (R ++ X) = Ok (R' ++ X)
        ∧ filter K R' = U
        ∧ filter (fun r => ¬ K r) R' = filter (fun r => ¬ K r) R.
Proof.
  induction R as [|y R IH]; [done|]. rewrite !filter_cons.
  destruct (decide (K y)) as [Hy|Hy].
  - intros [= -> HU]. exists R. cbn [app list_remove].
    rewrite decide_True by done. split_and!; [done..|].
    by rewrite decide_False by (by intros ?).
  - intros HU. destruct (IH HU) as (R' & Hrm & HK & HnK).
    assert (y ≠ B) as Hne.
    { intros ->. apply Hy.
      assert (B ∈ filter K R) as HB by (rewrite HU; apply list_elem_of_here).
      by apply list_elem_of_filter in HB as [? _]. }
    exists (y :: R'). cbn [app list_remove]. rewrite decide_False by done.
    rewrite Hrm. cbn [mbind result_bind]. split_and!; [done|..].
    + by rewrite filter_cons, decide_False.
    + rewrite filter_cons, decide_True by done. rewrite HnK.
      by destruct (decide (¬ K y)).
Qed.

Section one_level.
Variable self : CFG.
Local Abbreviation d := (productions self).
Variable nts : list str.

(** The rounds of one key: its unit alternatives go, in order, and the
    alternatives of each target are appended. *)
Lemma substitute_loop_key (A : str) (lA : loc) (U : list str) :
  dict_get d A = Some lA →
  ∀ (h : heap) (R X : list str),
    lA < length h → deref h lA = R ++ X →
    filter (fun r => r ∈ nts) R = U →
    (∀ B, B ∈ U → ∃ lB, dict_get d B = Some lB ∧ lB ≠ lA) →
    substitute_loop self h (map (pair A) U)
    = Ok (<[lA := filter (fun r => r ∉ nts) R ++ X ++ flat_map (alts_at h d) U]> h).
Proof.
  intros HA. induction U as [|B U IH]; intros h R X HlA Hd HU Ht.
  - cbn [map substitute_loop flat_map]. f_equal. symmetry.
    apply list_insert_id. rewrite app_nil_r, filter_complement_nil by done.
    unfold deref in Hd. destruct (h !! lA) as [v|] eqn:E; [simpl in Hd; by subst|].
    apply lookup_ge_None in E. lia.
  - destruct (Ht B) as (lB & HB & Hne); [apply list_elem_of_here|].
    destruct (list_remove_first_key _ B R X U HU) as (R' & Hrm & HK & HnK).
    assert (B ∈ deref h lA) as Hin.
    { rewrite Hd. apply elem_of_app. left.
      assert (B ∈ filter (fun r => r ∈ nts) R) as HB'
        by (rewrite HU; apply list_elem_of_here).
      by apply list_elem_of_filter in HB' as [_ ?]. }
    destruct (substitute_one_Ok self h A B lA lB HA HB HlA Hin)
      as (rules & Hrules & _ & Hone).
    rewrite Hd, Hrm in Hrules. injection Hrules as <-.
    rewrite decide_False in Hone by done.
    cbn [map substitute_loop]. rewrite Hone. cbn [mbind result_bind].
    rewrite (IH _ R' (X ++ deref h lB)).
    + rewrite list_insert_insert_eq. f_equal. f_equal.
      rewrite HnK. f_equal. rewrite <- app_assoc. f_equal.
      cbn [flat_map]. f_equal.
      * unfold alts_at. by rewrite HB.
      * apply flat_map_ext_elem. intros B' HB'.
        destruct (Ht B') as (lB' & HB'd & Hne'); [by apply list_elem_of_further|].
        unfold alts_at. rewrite HB'd. by rewrite deref_insert_ne.
    + by rewrite length_insert.
    + rewrite deref_insert_eq by done. by rewrite <- app_assoc.
    + done.
    + intros B' HB'. apply Ht. by apply list_elem_of_further.
Qed.

Lemma substitute_loop_entries (h0 : heap) :
  own_lists h0 d → (∀ x, x ∈ nts → x ∈ keys d) → one_level_at self nts h0 →
  ∀ (d2 d1 : list (str * loc)) (h : heap),
    d = d1 ++ d2 → length h = length h0 →
    (∀ A l, (A, l) ∈ d2 → deref h l = deref h0 l) →
    (∀ B lB, dict_get d B = Some lB → no_units nts h0 lB → deref h lB = deref h0 lB) →
    ∃ h',
      substitute_loop self h (unit_pairs h0 nts d2) = Ok h'
      ∧ length h' = length h0
      ∧ (∀ A l, (A, l) ∈ d2 → deref h' l = substituted_at self nts h0 l)
      ∧ (∀ l, l ∉ map snd d2 → deref h' l = deref h l).
Proof.
  intros (Hk & Hl & Hv) Hsub Hone.
  induction d2 as [|[A lA] d2 IH]; intros d1 h Hd Hlen Hsame Hkeep.
  - exists h. split_and!; [done..| |done].
    intros A l Hin. by apply elem_of_nil in Hin.
  - assert ((A, lA) ∈ d) as HAd.
    { rewrite Hd. apply elem_of_app. right. apply list_elem_of_here. }
    pose proof (dict_get_elem d A lA Hk HAd) as HA.
    pose proof (dict_get_valid h0 d A lA Hv HA) as HlA.
    assert (lA ∉ map snd d2) as HlA2.
    { rewrite Hd, fmap_app in Hl. apply NoDup_app in Hl as (_ & _ & Hl).
      cbn [fmap list_fmap snd] in Hl. by apply NoDup_cons in Hl as [? _]. }
    set (U := filter (fun r => r ∈ nts) (deref h0 lA)).
    assert (∀ B, B ∈ U → ∃ lB, dict_get d B = Some lB ∧ lB ≠ lA
                               ∧ deref h lB = deref h0 lB) as Htargets.
    { intros B HB. apply list_elem_of_filter in HB as [HBn HB].
      destruct (dict_get_is_Some d B (Hsub B HBn)) as [lB HBd].
      pose proof (Hone A lA B lB HA HB HBn HBd) as Hno.
      exists lB. split_and!; [done| |by apply (Hkeep B)].
      intros ->. assert (A = B) as -> by (by eapply dict_get_inj).
      unfold no_units in Hno.
      assert (B ∈ filter (fun r => r ∈ nts) (deref h0 lA)) as HB'
        by (by apply list_elem_of_filter).
      rewrite Hno in HB'. by apply elem_of_nil in HB'. }
    change (unit_pairs h0 nts ((A, lA) :: d2))
      with (map (pair A) U ++ unit_pairs h0 nts d2).
    rewrite substitute_loop_app.
    rewrite (substitute_loop_key A lA U HA h (deref h0 lA) []).
    2:{ by rewrite Hlen. }
    2:{ rewrite app_nil_r. apply (Hsame A), list_elem_of_here. }
    2:{ done. }
    2:{ intros B HB. destruct (Htargets B HB) as (lB & ? & ? & _). by exists lB. }
    cbn [mbind result_bind app].
    assert (flat_map (alts_at h d) U = flat_map (alts_at h0 d) U) as ->.
    { apply flat_map_ext_elem. intros B HB.
      destruct (Htargets B HB) as (lB & HBd & _ & Heq).
      unfold alts_at. by rewrite HBd. }
    fold (substituted_at self nts h0 lA).
    destruct (IH (d1 ++ [(A, lA)]) (<[lA := substituted_at self nts h0 lA]> h))
      as (h' & Hloop & Hlen' & Hdone & Hfr).
    + by rewrite <- app_assoc.
    + by rewrite length_insert.
    + intros A' l' Hin. rewrite deref_insert_ne.
      * by apply (Hsame A'), list_elem_of_further.
      * intros <-. apply HlA2. apply list_elem_of_fmap. by exists (A', lA).
    + intros B lB HBd Hno. destruct (decide (lB = lA)) as [->|Hne].
      * rewrite deref_insert_eq by (by rewrite Hlen).
        unfold substituted_at. unfold no_units in Hno. rewrite Hno.
        cbn [flat_map]. rewrite app_nil_r. by apply filter_complement_nil.
      * rewrite deref_insert_ne by done. by apply (Hkeep B).
    + exists h'. split_and!; [done..| |].
      * intros A' l' Hin. apply elem_of_cons in Hin as [[= -> ->]|Hin].
        -- rewrite Hfr by done. apply deref_insert_eq. by rewrite Hlen.
        -- by apply (Hdone A').
      * intros l Hl'. cbn [map snd] in Hl'. apply not_elem_of_cons in Hl' as [Hne Hl'].
        rewrite Hfr by done. by rewrite deref_insert_ne.
Qed.
End one_level.

(** C4 on [grammar_chain]: one call of the unit stage on [A -> B],
    [B -> C], [C -> d] leaves [A -> C], an alternative that is exactly one
    nonterminal, and does not produce [A -> d]; the whole pipeline returns
    the same grammar.  The pair [(A, B)] is substituted before [(B, C)],
    when the list of [B] still is [C]: with the same productions under the
    keys in the order [C], [B], [A] the call does produce [A -> d]. *)
Theorem unit_chain_not_resolved :
  eliminate_units grammar_chain
  = Ok [(py "A", [py "C"]); (py "B", [py "d"]); (py "C", [py "d"])]
  ∧ py "C" ∈ keys grammar_chain
  ∧ ¬ has [(py "A", [py "C"]); (py "B", [py "d"]); (py "C", [py "d"])]
          (py "A") (py "d")
  ∧ normalize islower_latin_greek grammar_chain
    = Ok [(py "A", [py "C"]); (py "B", [py "d"]); (py "C", [py "d"])]
  ∧ eliminate_units grammar_chain_reversed
    = Ok [(py "C", [py "d"]); (py "B", [py "d"]); (py "A", [py "d"])].
Proof.
  split_and!; try (vm_compute; reflexivity); [by_compute|].
  intros (alts & Hget & Hin). vm_compute in Hget. simplify_eq.
  revert Hin. by_compute.
Qed.

Lemma CFG_init_before_units (d : list (str * loc)) : before_units (CFG_init d).
Proof. split; [done|]. by intros x Hx. Qed.

Lemma dict_get_contents (h : heap) (d : list (str * loc)) (B : str) :
  dict_get (contents h d) B = deref h <$> dict_get d B.
Proof.
  induction d as [|[k l] d IH]; simpl; [done|].
  destruct (decide (k = B)); [done | apply IH].
Qed.

Lemma alts_at_load (g : list (str * list str)) (B : str) :
  alts_at (load g).1 (load g).2 B = alts_of g B.
Proof.
  unfold alts_at, alts_of.
  pose proof (dict_get_contents (load g).1 (load g).2 B) as H.
  rewrite load_contents in H. rewrite H.
  by destruct (dict_get (load g).2 B).
Qed.

Lemma eliminate_units_substituted (g : list (str * list str)) :
  NoDup (keys g) → one_level g →
  eliminate_units g = Ok (map (fun '(A, alts) => (A, substituted g alts)) g).
Proof.
  intros Hnd Hone. unfold eliminate_units.
  pose proof (load_own_lists g Hnd) as Hown.
  pose proof (keys_load g) as Hkeys.
  pose proof (load_contents g) as Hg.
  pose proof (alts_at_load g) as Halts.
  assert (∀ A alts, (A, alts) ∈ g
                    ↔ ∃ l, (A, l) ∈ (load g).2 ∧ alts = deref (load g).1 l) as Hload
    by apply elem_of_load.
  destruct (load g) as [h d]; cbn [fst snd] in *.
  unfold remove_unit_productions, substitute_unit_productions.
  rewrite find_unit_productions_pairs by apply CFG_init_before_units.
  set (self' := find_unit_productions h (CFG_init d)).
  cbn [non_terminals productions CFG_init].
  destruct (substitute_loop_entries self' (keys d) h Hown) with (d2 := d) (d1 := @nil (str * loc)) (h := h)
    as (h' & -> & Hlen & Hdone & _); [by intros x Hx| |done..|].
  - intros A lA B lB HA HB HBk HBd.
    apply elem_of_nil_inv. intros r Hr.
    apply list_elem_of_filter in Hr as [Hrk Hr].
    apply (Hone A (deref h lA) B (deref h lB) r); [|done| |done|].
    + apply Hload. exists lA. split; [by apply dict_get_Some_elem | done].
    + apply Hload. exists lB. split; [by apply dict_get_Some_elem | done].
    + by rewrite <- Hkeys.
  - cbn [mbind result_bind]. f_equal.
    trans (map (fun '(A, alts) => (A, substituted g alts)) (contents h d));
      [|by rewrite Hg].
    unfold contents. rewrite map_map.
    apply map_ext_Forall, Forall_forall. intros [A l] Hin. cbn [fst snd].
    f_equal. rewrite (Hdone A l Hin). unfold substituted_at, substituted.
    cbn [productions self' find_unit_productions CFG_init]. rewrite <- Hkeys.
    f_equal. apply flat_map_ext_elem. intros B _. apply Halts.
Qed.

(** Where the stage keeps the promise of its docstring: on a grammar
    given as a value (one list object per key) in which no alternative of
    a unit target is itself a unit alternative, the call returns for each
    nonterminal its alternatives that are not nonterminals followed by the
    alternatives of its unit alternatives, in order, and no alternative of
    the result consists of exactly one nonterminal. *)
Lemma eliminate_units_one_level (g : list (str * list str)) :
  NoDup (keys g) → one_level g →
  eliminate_units g = Ok (map (fun '(A, alts) => (A, substituted g alts)) g)
  ∧ ∀ A alts r, (A, alts) ∈ g → r ∈ substituted g alts → r ∉ keys g.
Proof.
  intros Hnd Hone. split; [by apply eliminate_units_substituted|].
  intros A alts r Hin Hr. unfold substituted in Hr.
  apply elem_of_app in Hr as [Hr|Hr].
  - by apply list_elem_of_filter in Hr as [? _].
  - apply list_elem_of_In, in_flat_map in Hr as (B & HB & Hr).
    apply list_elem_of_In in HB, Hr.
    apply list_elem_of_filter in HB as [HBk HB].
    unfold alts_of in Hr. destruct (dict_get g B) as [altsB|] eqn:E.
    + apply dict_get_Some_elem in E. by apply (Hone A alts B altsB r).
    + by apply elem_of_nil in Hr.
Qed.

Lemma eliminate_units_one_level_witness :
  NoDup (keys grammar_one_unit) ∧ one_level grammar_one_unit
  ∧ eliminate_units grammar_one_unit
    = Ok (map (fun '(A, alts) => (A, substituted grammar_one_unit alts))
              grammar_one_unit).
Proof.
  assert (NoDup (keys grammar_one_unit)) as Hnd by by_compute.
  assert (one_level grammar_one_unit) as Hone.
  { intros A alts B altsB r HA HB HBa Hr. unfold grammar_one_unit in *.
    rewrite !elem_of_cons, elem_of_nil in HA, HBa.
    destruct HA as [HA|[HA|[]]]; destruct HBa as [HBa|[HBa|[]]]; simplify_eq;
      rewrite !elem_of_cons, elem_of_nil in HB;
      repeat (destruct HB as [HB|HB]); try discriminate HB; try done;
      rewrite !elem_of_cons, elem_of_nil in Hr;
      destruct Hr as [->|[->|[]]]; by_compute. }
  split_and!; [exact Hnd | exact Hone |].
  exact (proj1 (eliminate_units_one_level grammar_one_unit Hnd Hone)).
Defined.

(** ** C10: when the unit stage raises

    The counting argument is per list object, so it needs every key to
    have a list of its own.  This holds wherever the program itself calls
    the stage: [input_cfg] binds every key to the list of its own [split],
    and inside [transform] the ε stage has just built one new list per key
    ([remove_epsilon_own_lists]). *)

(** C10, as stated, fails: the dict [{'A': l, 'D': l, 'B': ['x']}] with
    the one list object [l = ['B']] maps its three nonterminals to lists of
    strings, and the scan records [(A, B)] and [(D, B)]; the round of
    [(A, B)] rewrites the shared list to [['x']], so the round of [(D, B)]
    no longer finds [B] in it and [remove] raises [ValueError]. *)
Lemma shared_list_object :
  NoDup (keys shared_dict) ∧ valid shared_store shared_dict
  ∧ contents shared_store shared_dict
    = [(py "A", [py "B"]); (py "D", [py "B"]); (py "B", [py "x"])]
  ∧ unit_productions (find_unit_productions shared_store (CFG_init shared_dict))
    = [(py "A", py "B"); (py "D", py "B")]
  ∧ substitute_loop (find_unit_productions shared_store (CFG_init shared_dict))
                    shared_store [(py "A", py "B")]
    = Ok [[py "x"]; [py "x"]]
  ∧ (py "B" ∉ deref [[py "x"]; [py "x"]] 0)
  ∧ remove_unit_productions shared_store (CFG_init shared_dict)
    = Raise ValueError.
Proof. split_and!; try by_compute; vm_compute; reflexivity. Qed.

(** C10, amended: on a new [CFG] object for a dict whose keys are bound to
    pairwise distinct list objects, each recorded unit pair [(A, B)] has
    [B] among the keys, the loop reaches the pair without raising, [B] is
    then in the list of [A], and the whole stage returns; this holds for
    every order of the keys, with repeated unit alternatives and with
    self-units. *)
Theorem unit_stage_total_on_own_lists (h : heap) (d : list (str * loc)) :
  own_lists h d →
  (∀ ps1 A B ps2,
     unit_productions (find_unit_productions h (CFG_init d))
     = ps1 ++ (A, B) :: ps2 →
     B ∈ keys d
     ∧ (∃ lB, dict_get d B = Some lB)
     ∧ ∃ h1 l,
         substitute_loop (find_unit_productions h (CFG_init d)) h ps1 = Ok h1
         ∧ dict_get d A = Some l ∧ B ∈ deref h1 l)
  ∧ ∃ h' self', remove_unit_productions h (CFG_init d) = Ok (h', self').
Proof.
  intros Hown. split.
  - intros ps1 A B ps2 Hps.
    destruct (remove_unit_productions_moment h (CFG_init d) ps1 ps2 A B Hown
                (CFG_init_before_units d) Hps) as [HB Hrun].
    split_and!; [done| |done]. by apply dict_get_is_Some.
  - destruct (remove_unit_productions_Ok h (CFG_init d) Hown
                (CFG_init_before_units d)) as (h' & Hrun & _).
    by eexists _, _.
Qed.

Lemma unit_stage_total_on_own_lists_witness :
  own_lists (load grammar_units).1 (load grammar_units).2
  ∧ ∃ h' self',
      remove_unit_productions (load grammar_units).1
                              (CFG_init (load grammar_units).2)
      = Ok (h', self').
Proof.
  assert (own_lists (load grammar_units).1 (load grammar_units).2) as Hown.
  { split_and!; by_compute. }
  split; [exact Hown|].
  exact (proj2 (unit_stage_total_on_own_lists _ _ Hown)).
Defined.

(** ** C9: no validation *)

(** C9, amended by this theorem: no invariant is checked anywhere.  The
    constructors store their arguments as they are, and for every dict of
    alternatives, well formed or not, [transform] returns a grammar. *)
Theorem normalize_never_raises (islower : char → bool) (g : list (str * list str)) :
  NoDup (keys g) → ∃ out, normalize islower g = Ok out.
Proof.
  intros Hnd. unfold normalize.
  destruct (load_own_lists g Hnd) as (Hk & _ & Hv).
  destruct (load g) as [h d]; simpl in *.
  destruct (transform_Ok islower h d Hk Hv) as (h' & self' & -> & _).
  simpl. by eexists.
Qed.

Lemma normalize_never_raises_witness :
  NoDup (keys grammar_malformed)
  ∧ ∃ out, normalize islower_latin_greek grammar_malformed = Ok out.
Proof.
  assert (NoDup (keys grammar_malformed)) as Hnd by by_compute.
  split; [exact Hnd|].
  exact (normalize_never_raises islower_latin_greek grammar_malformed Hnd).
Defined.

(** C9, as stated, fails: a grammar with an undeclared nonterminal and a
    mixed ε, and an automaton whose transition, start state, start symbol
    and accepting state are not declared, are accepted and converted; no
    error is reported. *)
Lemma malformed_input_accepted :
  (py "B" ∉ keys grammar_malformed)
  ∧ (949%N ∈ py "b" ++ epsilon) ∧ py "b" ++ epsilon ≠ epsilon
  ∧ normalize islower_latin_greek grammar_malformed = Ok grammar_malformed
  ∧ (py "q9" ∉ states pda_malformed) ∧ (py "s" ∉ states pda_malformed)
  ∧ convert pda_malformed
    = [(py "q9Wq7", [py "aq9q7"; py "aq9Zq7"; py "a"])].
Proof.
  split_and!; try by_compute; vm_compute; reflexivity.
Qed.

(** ** C8: what the stages do to the grammar they receive *)

(** C8, as stated, fails for the unit stage: it returns the dict it
    received, and the lists of that dict have changed; run inside the
    pipeline, it overwrites the result of the ε stage. *)
Lemma unit_stage_mutates_its_input :
  let '(h, d) := load grammar_chain in
  let '(h1, self1) := remove_epsilon h (CFG_init d) in
  contents h d = grammar_chain
  ∧ (∃ h' self',
       remove_unit_productions h (CFG_init d) = Ok (h', self')
       ∧ productions self' = d
       ∧ contents h' d
         = [(py "A", [py "C"]); (py "B", [py "d"]); (py "C", [py "d"])])
  ∧ contents h1 (productions self1) = grammar_chain
  ∧ ∃ h2 self2,
      transform islower_latin_greek h (CFG_init d) = Ok (h2, self2)
      ∧ contents h2 (productions self1)
        = [(py "A", [py "C"]); (py "B", [py "d"]); (py "C", [py "d"])].
Proof.
  vm_compute. split_and!; [done| |done|].
  - eexists _, _. split_and!; reflexivity.
  - eexists _, _. split_and!; reflexivity.
Qed.

(** C8, amended: the ε stage builds a new dict of new list objects and
    leaves the grammar it received as it was; the useless-symbol stage
    builds a new dict out of entries of the old one, over the same list
    objects; and a whole [transform] call returns and leaves the dict given
    to the constructor as it was.  The unit stage is not covered: it works
    in place. *)
Theorem input_grammar_preserved (islower : char → bool) (h : heap)
    (d : list (str * loc)) :
  NoDup (keys d) → valid h d →
  contents (remove_epsilon h (CFG_init d)).1 d = contents h d
  ∧ (∀ l, l ∈ map snd (productions (remove_epsilon h (CFG_init d)).2)
          → length h ≤ l)
  ∧ (∀ self,
       productions (remove_useless_symbols islower h self)
       = filter (fun kv => kv.1 ∈ useful_symbols (find_useful_symbols islower h self))
                (productions self))
  ∧ ∃ h' self',
      transform islower h (CFG_init d) = Ok (h', self')
      ∧ contents h' d = contents h d.
Proof.
  intros Hnd Hv. split_and!.
  - by apply remove_epsilon_frame.
  - unfold remove_epsilon. rewrite remove_epsilon_productions_eq by done.
    cbn [productions snd find_epsilon_productions CFG_init].
    intros l Hl. rewrite snd_zip in Hl.
    + apply elem_of_seq in Hl. lia.
    + unfold keys. rewrite length_map, length_seq. lia.
  - intros self. apply remove_useless_symbols_productions.
  - destruct (transform_Ok islower h d Hnd Hv) as (h' & self' & Ht & Hfr).
    exists h', self'. split; [done|].
    unfold contents. apply map_ext_Forall.
    eapply Forall_impl; [exact Hv|]. intros [k l] Hl; simpl in *.
    by rewrite Hfr.
Qed.

Lemma input_grammar_preserved_witness :
  NoDup (keys (load grammar_chain).2)
  ∧ valid (load grammar_chain).1 (load grammar_chain).2
  ∧ ∃ h' self',
      transform islower_latin_greek (load grammar_chain).1
                (CFG_init (load grammar_chain).2) = Ok (h', self')
      ∧ contents h' (load grammar_chain).2
        = contents (load grammar_chain).1 (load grammar_chain).2.
Proof.
  assert (NoDup (keys (load grammar_chain).2)) as Hnd by by_compute.
  assert (valid (load grammar_chain).1 (load grammar_chain).2) as Hv by by_compute.
  split_and!; [exact Hnd | exact Hv |].
  exact (proj2 (proj2 (proj2 (input_grammar_preserved islower_latin_greek
                                (load grammar_chain).1 (load grammar_chain).2
                                Hnd Hv)))).
Defined.

(** ** C7: running the pipeline twice *)

(** C7, as stated, fails: on [S -> aX], [X -> B] the first run drops
    [X], which has no usable alternative, and keeps [S -> aX], usable as
    long as [X] is a nonterminal; in the second run [X] is none, so [S]
    goes too and the result is the empty grammar. *)
Lemma normalize_not_idempotent :
  normalize islower_latin_greek grammar_dangling = Ok [(py "S", [py "aX"])]
  ∧ normalize islower_latin_greek [(py "S", [py "aX"])] = Ok []
  ∧ ¬ same_productions [(py "S", [py "aX"])] [].
Proof.
  split_and!; try (vm_compute; reflexivity).
  intros H. destruct (proj1 (H (py "S") (py "aX"))) as (alts & Hget & _).
  - exists [py "aX"]. split; [done | apply list_elem_of_here].
  - discriminate Hget.
Qed.

Lemma sublist_map {A B} (f : A → B) (l1 l2 : list A) :
  l1 `sublist_of` l2 → map f l1 `sublist_of` map f l2.
Proof. induction 1; simpl; by constructor. Qed.

Lemma filter_all {A} (P : A → Prop) `{∀ x, Decision (P x)} (l : list A) :
  (∀ x, x ∈ l → P x) → filter P l = l.
Proof.
  induction l as [|x l IH]; intros HP; [done|].
  rewrite filter_cons, decide_True by (apply HP, list_elem_of_here).
  f_equal. apply IH. intros y Hy. by apply HP, list_elem_of_further.
Qed.

Lemma new_rules_of_nil (rules : list str) :
  epsilon ∉ rules → new_rules_of [] rules = rules.
Proof.
  intros He. rewrite new_rules_of_eq.
  rewrite filter_all by (intros x Hx ->; done).
  assert (flat_map (generate_new_rules []) rules = []) as ->; [|by rewrite app_nil_r].
  clear He. induction rules as [|rule rules IH]; simpl; [done|].
  rewrite IH, app_nil_r. apply generate_new_rules_none.
  induction rule as [|c rule IHr]; simpl; [done|]. by rewrite IHr.
Qed.

Lemma map_id_on {A} (f : A → A) (l : list A) :
  (∀ x, x ∈ l → f x = x) → map f l = l.
Proof.
  induction l as [|x l IH]; intros Hf; simpl; [done|].
  rewrite Hf by apply list_elem_of_here. f_equal.
  apply IH. intros y Hy. by apply Hf, list_elem_of_further.
Qed.

Lemma normalize_fixed (islower : char → bool) (g : list (str * list str)) :
  NoDup (keys g) → stage_fixed_point islower g → normalize islower g = Ok g.
Proof.
  intros Hnd (Hne & Hnu & Hus). unfold normalize, transform.
  destruct (load_own_lists g Hnd) as (Hk & _ & Hv).
  pose proof (keys_load g) as Hkeys.
  pose proof (load_contents g) as Hg.
  assert (epsilon_set g = []) as Heps.
  { apply elem_of_nil_inv. intros x Hx.
    apply elem_of_epsilon_set in Hx as (alts & Hin & He). by apply (Hne x alts). }
  unfold epsilon_set in Heps.
  destruct (load g) as [h d]; cbn [fst snd] in *.
  pose proof (remove_epsilon_contents h (CFG_init d) Hk Hv) as Hc1.
  pose proof (remove_epsilon_own_lists h (CFG_init d) Hk Hv) as Hown1.
  assert (non_terminals (remove_epsilon h (CFG_init d)).2 = keys d
          ∧ unit_productions (remove_epsilon h (CFG_init d)).2 = []
          ∧ useful_symbols (remove_epsilon h (CFG_init d)).2 = []
          ∧ keys (productions (remove_epsilon h (CFG_init d)).2) = keys d)
    as (Hnt1 & Hu1 & Hf1 & Hk1).
  { unfold remove_epsilon. rewrite remove_epsilon_productions_eq by done.
    split_and!; [done..|]. simpl.
    rewrite keys_zip; [done|]. unfold keys. by rewrite length_map, length_seq. }
  rewrite Heps in Hc1. cbn [productions CFG_init] in Hc1. rewrite Hg in Hc1.
  rewrite map_id_on in Hc1.
  2:{ intros [A alts] Hin. f_equal. apply new_rules_of_nil. by apply (Hne A). }
  destruct (remove_epsilon h (CFG_init d)) as [h1 self1]; cbn [fst snd] in *.
  unfold remove_unit_productions, substitute_unit_productions.
  assert (unit_productions (find_unit_productions h1 self1) = []) as Hps.
  { rewrite find_unit_productions_eq, Hu1. simpl.
    apply elem_of_nil_inv. intros [A B] Hin.
    apply elem_of_unit_pairs in Hin as (l & Hin & HB & Hnts).
    apply (Hnu A (deref h1 l) B); [|done|].
    - rewrite <- Hc1. apply elem_of_contents. by exists l.
    - by rewrite <- Hkeys, <- Hnt1. }
  rewrite Hps. cbn [substitute_loop mbind result_bind]. f_equal.
  rewrite remove_useless_symbols_contents; [| |done].
  - cbn [productions non_terminals find_unit_productions].
    rewrite Hc1, Hnt1, Hkeys. apply filter_all.
    intros [A alts] Hin. simpl. apply existsb_elem. by apply (Hus A).
  - apply Hown1.
Qed.

(** The nonterminals of the result are nonterminals of the input, in the
    same order. *)
Lemma normalize_keys_sublist (islower : char → bool)
    (g out : list (str * list str)) :
  NoDup (keys g) → normalize islower g = Ok out → keys out `sublist_of` keys g.
Proof.
  intros Hnd. unfold normalize, transform.
  destruct (load_own_lists g Hnd) as (Hk & _ & Hv).
  pose proof (keys_load g) as Hkeys.
  destruct (load g) as [h d]; cbn [fst snd] in *.
  pose proof (remove_epsilon_own_lists h (CFG_init d) Hk Hv) as Hown.
  assert (before_units (remove_epsilon h (CFG_init d)).2
          ∧ keys (productions (remove_epsilon h (CFG_init d)).2) = keys d)
    as [Hb Hk1].
  { unfold remove_epsilon. rewrite remove_epsilon_productions_eq by done.
    assert (keys (zip (keys d) (seq (length h) (length d))) = keys d) as Hkz.
    { rewrite keys_zip; [done|]. unfold keys. by rewrite length_map, length_seq. }
    split; [|done]. split; [done|]. cbn [productions non_terminals
      find_epsilon_productions CFG_init snd]. intros x Hx. by rewrite Hkz. }
  destruct (remove_epsilon h (CFG_init d)) as [h1 self1]; cbn [fst snd] in *.
  destruct (remove_unit_productions_Ok h1 self1 Hown Hb) as (h2 & -> & _).
  cbn [mbind result_bind]. intros [= <-].
  rewrite keys_contents, <- Hkeys, <- Hk1. apply sublist_map, sublist_filter.
Qed.

(** C7, amended: a second run changes nothing whenever the result of the
    first run is a fixed point of each stage (no literal ε alternative, no
    alternative equal to one of its keys, and for each key an alternative
    whose characters are lowercase or keys): the second run returns the
    grammar it is given, alternative order included. *)
Theorem normalize_idempotent_on_fixed_points (islower : char → bool)
    (G G' : list (str * list str)) :
  NoDup (keys G) →
  normalize islower G = Ok G' →
  stage_fixed_point islower G' →
  normalize islower G' = Ok G'
  ∧ (G'' ← normalize islower G; normalize islower G'') = normalize islower G.
Proof.
  intros Hnd HG Hfix.
  assert (normalize islower G' = Ok G') as HG'.
  { apply normalize_fixed; [|done].
    exact (sublist_NoDup _ _ Hnd (normalize_keys_sublist islower G G' Hnd HG)). }
  split; [done|]. rewrite HG. cbn [mbind result_bind]. done.
Qed.

Lemma normalize_idempotent_on_fixed_points_witness :
  NoDup (keys grammar_unit_epsilon)
  ∧ normalize islower_latin_greek grammar_unit_epsilon
    = Ok [(py "S", [py "aAb"; py "ab"; py "d"]);
          (py "A", [py "c"]);
          (py "B", [py "d"])]
  ∧ stage_fixed_point islower_latin_greek
      [(py "S", [py "aAb"; py "ab"; py "d"]); (py "A", [py "c"]); (py "B", [py "d"])]
  ∧ (G'' ← normalize islower_latin_greek grammar_unit_epsilon;
     normalize islower_latin_greek G'')
    = normalize islower_latin_greek grammar_unit_epsilon.
Proof.
  assert (NoDup (keys grammar_unit_epsilon)) as Hnd by by_compute.
  assert (normalize islower_latin_greek grammar_unit_epsilon
          = Ok [(py "S", [py "aAb"; py "ab"; py "d"]);
                (py "A", [py "c"]);
                (py "B", [py "d"])]) as HG by (vm_compute; reflexivity).
  assert (stage_fixed_point islower_latin_greek
            [(py "S", [py "aAb"; py "ab"; py "d"]);
             (py "A", [py "c"]);
             (py "B", [py "d"])]) as Hfix.
  { split_and!.
    - intros A alts Hin. rewrite !elem_of_cons, elem_of_nil in Hin.
      destruct Hin as [Hin|[Hin|[Hin|[]]]]; simplify_eq; by_compute.
    - intros A alts r Hin Hr. rewrite !elem_of_cons, elem_of_nil in Hin.
      destruct Hin as [Hin|[Hin|[Hin|[]]]]; simplify_eq;
        rewrite !elem_of_cons, elem_of_nil in Hr;
        repeat (destruct Hr as [->|Hr]); try done; by_compute.
    - intros A alts Hin. rewrite !elem_of_cons, elem_of_nil in Hin.
      destruct Hin as [Hin|[Hin|[Hin|[]]]]; simplify_eq.
      + exists (py "aAb"). split; [apply list_elem_of_here | vm_compute; reflexivity].
      + exists (py "c"). split; [apply list_elem_of_here | vm_compute; reflexivity].
      + exists (py "d"). split; [apply list_elem_of_here | vm_compute; reflexivity]. }
  split_and!; [exact Hnd | exact HG | exact Hfix |].
  exact (proj2 (normalize_idempotent_on_fixed_points islower_latin_greek
                  grammar_unit_epsilon _ Hnd HG Hfix)).
Defined.

(** ** C2: the productions of a transition *)



(** * Further properties of the methods *)

(** ** The unit stage keeps what is not a unit alternative and invents nothing *)

Lemma substitute_one_step (self : CFG) (h : heap) (A B : str)
    (ps : list (str * str)) :
  own_lists h (productions self) → closed_pairs self ((A, B) :: ps) →
  enough self h ((A, B) :: ps) →
  ∃ lA lB rules,
    dict_get (productions self) A = Some lA
    ∧ dict_get (productions self) B = Some lB
    ∧ lA < length h
    ∧ (∀ y, count y (deref h lA) = (if decide (B = y) then 1 else 0) + count y rules)
    ∧ substitute_one self h (A, B)
      = Ok (<[lA := rules ++ (if decide (lA = lB) then rules else deref h lB)]> h)
    ∧ enough self
        (<[lA := rules ++ (if decide (lA = lB) then rules else deref h lB)]> h) ps.
Proof.
  intros Hown Hcl Hen.
  destruct (substitute_one_enough self h A B ps Hown Hcl Hen)
    as (h' & lA & Hone & HA & Hin & _ & Hen' & _).
  destruct (Hcl A B) as [_ HB]; [apply list_elem_of_here|].
  apply dict_get_is_Some in HB as [lB HB].
  destruct Hown as (_ & _ & Hv).
  pose proof (dict_get_valid h _ A lA Hv HA) as HlA.
  destruct (substitute_one_Ok self h A B lA lB HA HB HlA Hin)
    as (rules & _ & Hc & Hone').
  exists lA, lB, rules. split_and!; [done..|].
  rewrite Hone' in Hone. by injection Hone as <-.
Qed.

Lemma substitute_loop_conserves (self : CFG) (ps : list (str * str)) :
  ∀ h : heap,
    own_lists h (productions self) → closed_pairs self ps → enough self h ps →
    ∃ h',
      substitute_loop self h ps = Ok h'
      ∧ length h' = length h
      ∧ (∀ l r, l ∈ map snd (productions self) → r ∈ deref h' l →
                ∃ l0, l0 ∈ map snd (productions self) ∧ r ∈ deref h l0)
      ∧ (∀ l r, r ∉ keys (productions self) →
                count r (deref h l) ≤ count r (deref h' l)).
Proof.
  induction ps as [|[A B] ps IH]; intros h Hown Hcl Hen.
  - exists h. split_and!; [done..| |done]. intros l r Hl Hr. by exists l.
  - cbn [substitute_loop].
    destruct (substitute_one_step self h A B ps Hown Hcl Hen)
      as (lA & lB & rules & HA & HB & HlA & Hc & -> & Hen').
    cbn [mbind result_bind].
    set (h1 := <[lA := rules ++ (if decide (lA = lB) then rules else deref h lB)]> h)
      in *.
    assert (length h1 = length h) as Hlen1 by apply length_insert.
    assert (∀ r, r ∈ rules → r ∈ deref h lA) as Hrules.
    { intros r Hr. apply count_pos. apply count_pos in Hr. rewrite Hc. lia. }
    destruct (IH h1) as (h' & -> & Hlen & Hfrom & Hkeep).
    + destruct Hown as (? & ? & Hv). split_and!; [done..|].
      unfold valid. by rewrite Hlen1.
    + intros A' B' Hin. apply Hcl. by apply list_elem_of_further.
    + done.
    + exists h'. split_and!; [done|congruence| |].
      * intros l r Hl Hr. destruct (Hfrom l r Hl Hr) as (l0 & Hl0 & Hr0).
        destruct (decide (l0 = lA)) as [->|Hne].
        -- unfold h1 in Hr0. rewrite deref_insert_eq in Hr0 by done.
           apply elem_of_app in Hr0 as [Hr0|Hr0].
           ++ exists lA. split; [done | by apply Hrules].
           ++ destruct (decide (lA = lB)).
              ** exists lA. split; [done | by apply Hrules].
              ** exists lB. split; [by eapply dict_get_snd | done].
        -- unfold h1 in Hr0. rewrite deref_insert_ne in Hr0 by done. by exists l0.
      * intros l r Hr. etrans; [|by apply Hkeep].
        destruct (decide (l = lA)) as [->|Hne].
        -- unfold h1. rewrite deref_insert_eq, count_app, Hc by done.
           rewrite decide_False; [lia|]. intros <-. apply Hr.
           by apply (Hcl A B), list_elem_of_here.
        -- unfold h1. by rewrite deref_insert_ne.
Qed.

Lemma remove_unit_productions_conserves (h : heap) (self : CFG) :
  own_lists h (productions self) → before_units self →
  ∃ h',
    remove_unit_productions h self = Ok (h', find_unit_productions h self)
    ∧ length h' = length h
    ∧ (∀ l r, l ∈ map snd (productions self) → r ∈ deref h' l →
              ∃ l0, l0 ∈ map snd (productions self) ∧ r ∈ deref h l0)
    ∧ (∀ l r, r ∉ keys (productions self) →
              count r (deref h l) ≤ count r (deref h' l)).
Proof.
  intros Hown Hb. unfold remove_unit_productions, substitute_unit_productions.
  rewrite find_unit_productions_pairs by done.
  set (self' := find_unit_productions h self).
  destruct (substitute_loop_conserves self'
              (unit_pairs h (non_terminals self) (productions self)) h)
    as (h' & -> & Hlen & Hfrom & Hkeep).
  - done.
  - apply (unit_pairs_closed self'), Hb.
  - apply (unit_pairs_enough self'), Hown.
  - by exists h'.
Qed.

(** X1: on a new [CFG] object for a dict whose keys are bound to pairwise
    distinct list objects, the unit stage returns and keeps the dict it
    was given, so the nonterminals and their order; every alternative that
    is not a nonterminal is still an alternative of its nonterminal, and
    every alternative of the result was an alternative of some nonterminal
    before the call. *)
Theorem unit_stage_conserves (h : heap) (d : list (str * loc)) :
  own_lists h d →
  ∃ h' self',
    remove_unit_productions h (CFG_init d) = Ok (h', self')
    ∧ productions self' = d
    ∧ (∀ A alts r, (A, alts) ∈ contents h d → r ∈ alts → r ∉ keys d →
                   ∃ alts', (A, alts') ∈ contents h' d ∧ r ∈ alts')
    ∧ (∀ A alts' r, (A, alts') ∈ contents h' d → r ∈ alts' →
                    ∃ B alts, (B, alts) ∈ contents h d ∧ r ∈ alts).
Proof.
  intros Hown.
  destruct (remove_unit_productions_conserves h (CFG_init d) Hown
              (CFG_init_before_units d)) as (h' & Hrun & Hlen & Hfrom & Hkeep).
  cbn [productions CFG_init] in *.
  eexists _, _. split_and!; [exact Hrun|done| |].
  - intros A alts r HA Hr Hk. apply elem_of_contents in HA as (l & HA & ->).
    exists (deref h' l). split; [apply elem_of_contents; by exists l|].
    apply count_pos. apply count_pos in Hr.
    pose proof (Hkeep l r Hk). lia.
  - intros A alts' r HA Hr. apply elem_of_contents in HA as (l & HA & ->).
    destruct (Hfrom l r) as (l0 & Hl0 & Hr0); [|done|].
    + apply list_elem_of_fmap. by exists (A, l).
    + apply list_elem_of_fmap in Hl0 as ([B l1] & -> & HB).
      exists B, (deref h l1). split; [|done].
      apply elem_of_contents. by exists l1.
Qed.

Lemma unit_stage_conserves_witness :
  own_lists (load grammar_units).1 (load grammar_units).2
  ∧ ∃ h' self',
      remove_unit_productions (load grammar_units).1
                              (CFG_init (load grammar_units).2)
      = Ok (h', self')
      ∧ productions self' = (load grammar_units).2
      ∧ (∀ A alts r,
           (A, alts) ∈ contents (load grammar_units).1 (load grammar_units).2 →
           r ∈ alts → r ∉ keys (load grammar_units).2 →
           ∃ alts', (A, alts') ∈ contents h' (load grammar_units).2 ∧ r ∈ alts')
      ∧ (∀ A alts' r,
           (A, alts') ∈ contents h' (load grammar_units).2 → r ∈ alts' →
           ∃ B alts,
             (B, alts) ∈ contents (load grammar_units).1 (load grammar_units).2
             ∧ r ∈ alts).
Proof.
  assert (own_lists (load grammar_units).1 (load grammar_units).2) as Hown.
  { split_and!; by_compute. }
  split; [exact Hown|].
  exact (unit_stage_conserves (load grammar_units).1 (load grammar_units).2 Hown).
Defined.

(** ** The useless-symbol stage on the same object *)

Lemma set_add_elem (x : str) (s : list str) : x ∈ s → set_add x s = s.
Proof. intros Hx. unfold set_add. apply mem_true in Hx. by rewrite Hx. Qed.

Lemma find_useful_rules_absorbed (islower : char → bool) (nts : list str)
    (nt : str) (rules useful : list str) :
  nt ∈ useful →
  foldl (fun useful rule =>
           if forallb (fun symbol => islower symbol || mem [symbol] nts) rule
           then set_add nt useful else useful) useful rules
  = useful.
Proof.
  intros Hnt. induction rules as [|rule rules IH]; simpl; [done|].
  destruct (forallb _ rule); [rewrite set_add_elem by done|]; apply IH.
Qed.

Lemma find_useful_symbols_absorbed (islower : char → bool) (h : heap)
    (self : CFG) :
  (∀ k, k ∈ keys (productions self) → k ∈ useful_symbols self) →
  useful_symbols (find_useful_symbols islower h self) = useful_symbols self.
Proof.
  unfold find_useful_symbols; simpl.
  induction (productions self) as [|[nt l] d IH]; intros Hk; simpl; [done|].
  rewrite find_useful_rules_absorbed by (apply Hk, list_elem_of_here).
  apply IH. intros k Hin. by apply Hk, list_elem_of_further.
Qed.

Lemma filter_filter_same {A} (P : A → Prop) `{∀ x, Decision (P x)} (l : list A) :
  filter P (filter P l) = filter P l.
Proof.
  apply filter_all. intros x Hx. by apply list_elem_of_filter in Hx as [? _].
Qed.

Lemma CFG_ext (a b : CFG) :
  productions a = productions b → non_terminals a = non_terminals b →
  epsilon_non_terminals a = epsilon_non_terminals b →
  unit_productions a = unit_productions b → useful_symbols a = useful_symbols b →
  a = b.
Proof. destruct a, b; simpl; congruence. Qed.

(** X2: a second call of [remove_useless_symbols] on the same object (with
    the set [useful_symbols] and the nonterminals it has kept from the
    first call) changes nothing. *)
Theorem remove_useless_symbols_twice (islower : char → bool) (h : heap)
    (self : CFG) :
  remove_useless_symbols islower h (remove_useless_symbols islower h self)
  = remove_useless_symbols islower h self.
Proof.
  set (U := useful_symbols (find_useful_symbols islower h self)).
  set (self1 := remove_useless_symbols islower h self).
  pose proof (remove_useless_symbols_productions islower h self) as Hp1.
  fold self1 U in Hp1.
  assert (useful_symbols self1 = U) as HU1 by done.
  assert (useful_symbols (find_useful_symbols islower h self1) = U) as Hu.
  { rewrite <- HU1. apply find_useful_symbols_absorbed. intros k Hk.
    apply list_elem_of_fmap in Hk as ([k' l] & -> & Hin).
    rewrite Hp1 in Hin. rewrite HU1.
    by apply list_elem_of_filter in Hin as [? _]. }
  pose proof (remove_useless_symbols_productions islower h self1) as Hp2.
  rewrite Hu, Hp1, filter_filter_same, <- Hp1 in Hp2.
  apply CFG_ext; [done..|]. by rewrite HU1.
Qed.

(** ** The pipeline: nonterminals and alternatives of the result *)

Lemma transform_inv (islower : char → bool) (h : heap) (d : list (str * loc)) :
  NoDup (keys d) → valid h d →
  ∃ h' self',
    transform islower h (CFG_init d) = Ok (h', self')
    ∧ keys (productions self') `sublist_of` keys d
    ∧ ∀ A alts r,
        (A, alts) ∈ contents h' (productions self') → r ∈ alts →
        ∃ B l0 r0,
          (B, l0) ∈ d ∧ r0 ∈ deref h l0
          ∧ (r = r0
             ∨ ∃ i, nullable_at (epsilon_non_terminals
                                   (find_epsilon_productions h (CFG_init d))) r0 i
                    ∧ r = take i r0 ++ drop (S i) r0).
Proof.
  intros Hnd Hv. unfold transform.
  pose proof (remove_epsilon_own_lists h (CFG_init d) Hnd Hv) as Hown.
  pose proof (remove_epsilon_contents h (CFG_init d) Hnd Hv) as Hc1.
  cbn [productions CFG_init] in Hc1.
  set (eps := epsilon_non_terminals (find_epsilon_productions h (CFG_init d))) in *.
  assert (before_units (remove_epsilon h (CFG_init d)).2
          ∧ keys (productions (remove_epsilon h (CFG_init d)).2) = keys d)
    as [Hb Hk1].
  { unfold remove_epsilon. rewrite remove_epsilon_productions_eq by done.
    assert (keys (zip (keys d) (seq (length h) (length d))) = keys d) as Hkz.
    { rewrite keys_zip; [done|]. unfold keys. by rewrite length_map, length_seq. }
    split; [|done]. split; [done|]. cbn [productions non_terminals
      find_epsilon_productions CFG_init snd]. intros x Hx. by rewrite Hkz. }
  destruct (remove_epsilon h (CFG_init d)) as [h1 self1]; cbn [fst snd] in *.
  destruct (remove_unit_productions_conserves h1 self1 Hown Hb)
    as (h2 & -> & _ & Hfrom & _).
  cbn [mbind result_bind]. eexists _, _. split; [done|].
  rewrite remove_useless_symbols_productions.
  cbn [productions find_unit_productions].
  split.
  - rewrite <- Hk1. apply sublist_map, sublist_filter.
  - intros A alts r HA Hr. apply elem_of_contents in HA as (l & HA & ->).
    apply list_elem_of_filter in HA as [_ HA].
    destruct (Hfrom l r) as (l0 & Hl0 & Hr0); [|done|].
    { apply list_elem_of_fmap. by exists (A, l). }
    apply list_elem_of_fmap in Hl0 as ([B l1] & -> & HB). cbn [snd] in Hr0.
    assert ((B, deref h1 l1) ∈ contents h1 (productions self1)) as HB1
      by (apply elem_of_contents; by exists l1).
    rewrite Hc1 in HB1.
    apply list_elem_of_fmap in HB1 as ([B' rules] & [= <- Heq] & HB').
    apply elem_of_contents in HB' as (l' & HB' & ->).
    rewrite Heq, new_rules_of_eq in Hr0.
    apply elem_of_app in Hr0 as [Hr0|Hr0].
    + apply list_elem_of_filter in Hr0 as [_ Hr0].
      exists B, l', r. split_and!; [done..|by left].
    + apply list_elem_of_In, in_flat_map in Hr0 as (r0 & Hr0 & Hg).
      apply list_elem_of_In in Hr0, Hg.
      apply elem_of_generate_new_rules in Hg as (i & Hi & ->).
      exists B, l', r0. split_and!; [done..|]. right. by exists i.
Qed.

(** X3: for every grammar [normalize] returns a grammar whose nonterminals
    are a subsequence of the nonterminals given (so they are distinct and
    in the original order), and [normalize] can be run on the result: the
    second run returns too. *)
Theorem normalize_keys (islower : char → bool) (g : list (str * list str)) :
  NoDup (keys g) →
  ∃ out,
    normalize islower g = Ok out
    ∧ keys out `sublist_of` keys g
    ∧ NoDup (keys out)
    ∧ ∃ out', normalize islower out = Ok out'.
Proof.
  intros Hnd.
  assert (∃ out, normalize islower g = Ok out ∧ keys out `sublist_of` keys g)
    as (out & Hout & Hsub).
  { unfold normalize. destruct (load_own_lists g Hnd) as (Hk & _ & Hv).
    pose proof (keys_load g) as Hkeys.
    destruct (load g) as [h d]; cbn [fst snd] in *.
    destruct (transform_inv islower h d Hk Hv) as (h' & self' & -> & Hsub & _).
    cbn [mbind result_bind]. eexists. split; [done|].
    by rewrite keys_contents, <- Hkeys. }
  assert (NoDup (keys out)) as Hnd' by (by eapply sublist_NoDup).
  exists out. split_and!; [done..|].
  unfold normalize. destruct (load_own_lists out Hnd') as (Hk & _ & Hv).
  destruct (load out) as [h d]; cbn [fst snd] in *.
  destruct (transform_inv islower h d Hk Hv) as (h' & self' & -> & _).
  cbn [mbind result_bind]. by eexists.
Qed.

Lemma normalize_keys_witness :
  NoDup (keys grammar_useless)
  ∧ ∃ out,
      normalize islower_latin_greek grammar_useless = Ok out
      ∧ keys out `sublist_of` keys grammar_useless
      ∧ NoDup (keys out)
      ∧ ∃ out', normalize islower_latin_greek out = Ok out'.
Proof.
  assert (NoDup (keys grammar_useless)) as Hnd by by_compute.
  split; [exact Hnd|].
  exact (normalize_keys islower_latin_greek grammar_useless Hnd).
Defined.

(** X4: every alternative of the grammar that [normalize] returns is an
    alternative of some nonterminal of the input, either as it was or with
    exactly one symbol deleted, at a position that held a nonterminal with a
    literal ε alternative; the pipeline never writes a symbol and never
    deletes two. *)
Theorem normalize_alternatives (islower : char → bool) (g : list (str * list str)) :
  NoDup (keys g) →
  ∃ out,
    normalize islower g = Ok out
    ∧ ∀ A alts r,
        (A, alts) ∈ out → r ∈ alts →
        ∃ B altsB r0,
          (B, altsB) ∈ g ∧ r0 ∈ altsB
          ∧ (r = r0
             ∨ ∃ i, nullable_at (epsilon_set g) r0 i
                    ∧ r = take i r0 ++ drop (S i) r0).
Proof.
  intros Hnd. unfold normalize, epsilon_set.
  destruct (load_own_lists g Hnd) as (Hk & _ & Hv).
  assert (∀ A alts, (A, alts) ∈ g
                    ↔ ∃ l, (A, l) ∈ (load g).2 ∧ alts = deref (load g).1 l) as Hload
    by apply elem_of_load.
  destruct (load g) as [h d]; cbn [fst snd] in *.
  destruct (transform_inv islower h d Hk Hv) as (h' & self' & -> & _ & Hfrom).
  cbn [mbind result_bind]. eexists. split; [done|].
  intros A alts r HA Hr.
  destruct (Hfrom A alts r HA Hr) as (B & l0 & r0 & HB & Hr0 & Hcase).
  exists B, (deref h l0), r0. split_and!; [|done..].
  apply Hload. by exists l0.
Qed.

Lemma normalize_alternatives_witness :
  NoDup (keys grammar_unit_nullable)
  ∧ ∃ out,
      normalize islower_latin_greek grammar_unit_nullable = Ok out
      ∧ ∀ A alts r,
          (A, alts) ∈ out → r ∈ alts →
          ∃ B altsB r0,
            (B, altsB) ∈ grammar_unit_nullable ∧ r0 ∈ altsB
            ∧ (r = r0
               ∨ ∃ i, nullable_at (epsilon_set grammar_unit_nullable) r0 i
                      ∧ r = take i r0 ++ drop (S i) r0).
Proof.
  assert (NoDup (keys grammar_unit_nullable)) as Hnd by by_compute.
  split; [exact Hnd|].
  exact (normalize_alternatives islower_latin_greek grammar_unit_nullable Hnd).
Defined.

(** ** add_production and the dict built by convert *)

Lemma keys_dict_set {V} (d : list (str * V)) (k : str) (v : V) :
  keys (dict_set d k v) = if decide (k ∈ keys d) then keys d else keys d ++ [k].
Proof.
  induction d as [|[k' v'] d IH]; cbn [dict_set].
  - destruct (decide (k ∈ keys [])) as [H|H]; [by apply elem_of_nil in H | done].
  - destruct (decide (k' = k)) as [->|Hne].
    + rewrite decide_True; [done | apply list_elem_of_here].
    + change (keys ((k', v') :: dict_set d k v)) with (k' :: keys (dict_set d k v)).
      rewrite IH. change (keys ((k', v') :: d)) with (k' :: keys d).
      destruct (decide (k ∈ keys d)) as [Hin|Hin].
      * rewrite decide_True; [done | by apply list_elem_of_further].
      * rewrite decide_False; [done|].
        rewrite elem_of_cons. intros [->|?]; done.
Qed.

Lemma keys_add_production (d : list (str * list str)) (l r : str) :
  keys (add_production d l r) = if decide (l ∈ keys d) then keys d else keys d ++ [l].
Proof.
  unfold add_production. destruct (dict_get d l) as [alts|] eqn:E.
  - rewrite keys_dict_set. done.
  - apply dict_get_None in E. rewrite !keys_dict_set.
    rewrite (decide_False (P := l ∈ keys d)) by done.
    rewrite decide_True; [done|]. apply elem_of_app. right. apply list_elem_of_here.
Qed.

Lemma NoDup_keys_add_production (d : list (str * list str)) (l r : str) :
  NoDup (keys d) → NoDup (keys (add_production d l r)).
Proof.
  intros Hnd. rewrite keys_add_production.
  destruct (decide (l ∈ keys d)); [done|].
  apply NoDup_app. split_and!; [done| |apply NoDup_singleton].
  intros x Hx Hl. apply list_elem_of_singleton in Hl. by subst.
Qed.

(** X5: [add_production] appends the right side at the end of the list of
    its left side, which it creates (after all other keys) when the left
    side is new; the lists of the other keys, the order of the keys and
    their distinctness are kept. *)
Theorem add_production_spec (d : list (str * list str)) (lhs rhs : str) :
  dict_get (add_production d lhs rhs) lhs
  = Some (default [] (dict_get d lhs) ++ [rhs])
  ∧ (∀ k, k ≠ lhs → dict_get (add_production d lhs rhs) k = dict_get d k)
  ∧ keys (add_production d lhs rhs)
    = (if decide (lhs ∈ keys d) then keys d else keys d ++ [lhs])
  ∧ (NoDup (keys d) → NoDup (keys (add_production d lhs rhs))).
Proof.
  split_and!.
  - rewrite dict_get_add_production. by rewrite decide_True.
  - intros k Hk. rewrite dict_get_add_production. by rewrite decide_False.
  - apply keys_add_production.
  - apply NoDup_keys_add_production.
Qed.

(** Distinct keys, and no key without a production. *)
Lemma convert_preserves (P : list (str * list str) → Prop) (self : PDAtoCFG) :
  (∀ d l r, P d → P (add_production d l r)) →
  P (cfg_productions self) → P (convert self).
Proof.
  intros Hadd. unfold convert. generalize (cfg_productions self) as d.
  induction (transitions self) as [|[[[p a] X] nexts] ts IH]; intros d Hd;
    cbn [foldl]; [done|].
  apply IH. clear IH. revert d Hd.
  induction nexts as [|[r ns] nexts IH]; intros d Hd; cbn [foldl]; [done|].
  apply IH. clear IH. revert d Hd.
  induction (seq 0 (length ns + 1)) as [|i ixs IH]; intros d Hd; cbn [foldl]; [done|].
  apply IH. destruct (production_at p a X r ns i). by apply Hadd.
Qed.

Lemma normalize_returns (islower : char → bool) (g : list (str * list str)) :
  NoDup (keys g) → ∃ out, normalize islower g = Ok out.
Proof.
  intros Hnd. unfold normalize.
  destruct (load_own_lists g Hnd) as (Hk & _ & Hv).
  destruct (load g) as [h d]; cbn [fst snd] in *.
  destruct (transform_Ok islower h d Hk Hv) as (h' & self' & -> & _).
  cbn [mbind result_bind]. by eexists.
Qed.

(** X6: the dict that [convert] returns on a new object has distinct keys
    and no key with an empty list of right sides, and it is accepted by
    the grammar pipeline: [CFG(convert()).transform()] returns. *)
Theorem convert_result_is_a_grammar (islower : char → bool)
    states input_alphabet stack_alphabet
    (transitions : list ((str * str * str) * list (str * str)))
    start_state start_symbol final_state :
  let out := convert (PDAtoCFG_init states input_alphabet stack_alphabet
                        transitions start_state start_symbol final_state) in
  NoDup (keys out)
  ∧ (∀ lhs alts, (lhs, alts) ∈ out → alts ≠ [])
  ∧ ∃ g, normalize islower out = Ok g.
Proof.
  intros out.
  assert (NoDup (keys out) ∧ ∀ lhs alts, dict_get out lhs = Some alts → alts ≠ [])
    as [Hnd Hne].
  { unfold out.
    apply (convert_preserves
             (fun d => NoDup (keys d)
                       ∧ ∀ lhs alts, dict_get d lhs = Some alts → alts ≠ [])).
    - intros d l r [Hnd Hne]. split; [by apply NoDup_keys_add_production|].
      intros lhs alts. rewrite dict_get_add_production.
      destruct (decide (l = lhs)) as [->|Hl].
      + intros [= <-]. by destruct (default [] (dict_get d lhs)).
      + apply Hne.
    - split; [apply NoDup_nil_2 | done]. }
  split_and!; [done| |by apply normalize_returns].
  intros lhs alts Hin. apply (Hne lhs). by apply dict_get_elem.
Qed.

(** X7: [convert] does not reset [self.cfg_productions]: a second call on
    the same object adds every production once more, so the dict returned
    holds the same productions, each twice as often. *)
Theorem convert_twice states input_alphabet stack_alphabet
    (transitions : list ((str * str * str) * list (str * str)))
    start_state start_symbol final_state :
  let self := PDAtoCFG_init states input_alphabet stack_alphabet transitions
                            start_state start_symbol final_state in
  size (convert (after_convert self)) = 2 * size (convert self)
  ∧ ∀ lhs rhs, has (convert (after_convert self)) lhs rhs
               ↔ has (convert self) lhs rhs.
Proof.
  intros self. rename transitions into ts. split.
  - rewrite !convert_size. cbn [cfg_productions after_convert self PDAtoCFG_init
      transitions]. rewrite convert_size.
    cbn [cfg_productions self PDAtoCFG_init transitions size map
      sum_list_with]. lia.
  - intros lhs rhs. rewrite (convert_has (after_convert self)).
    cbn [cfg_productions after_convert transitions].
    split; [|by left]. intros [H|H]; [done|].
    apply convert_has. by right.
Qed.

(** ** Console input *)

Lemma split_on_nonempty (sep : char) (s : str) : split_on sep s ≠ [].
Proof.
  induction s as [|c s IH]; simpl; [done|].
  destruct (decide (c = sep)); [done|]. by destruct (split_on sep s).
Qed.

Lemma split_on_join (sep : char) (s : str) : join [sep] (split_on sep s) = s.
Proof.
  induction s as [|c s IH]; simpl; [done|].
  pose proof (split_on_nonempty sep s) as Hne.
  destruct (decide (c = sep)) as [->|Hc].
  - destruct (split_on sep s) as [|piece pieces]; [done|].
    cbn [join app] in *. by rewrite IH.
  - destruct (split_on sep s) as [|piece pieces]; [done|].
    destruct pieces as [|piece' pieces]; cbn [join app] in *; by rewrite <- IH.
Qed.

Lemma split_on_no_sep (sep : char) (s piece : str) :
  piece ∈ split_on sep s → sep ∉ piece.
Proof.
  revert piece. induction s as [|c s IH]; simpl; intros piece Hin.
  - apply list_elem_of_singleton in Hin as ->. apply not_elem_of_nil.
  - destruct (decide (c = sep)) as [->|Hc].
    + apply elem_of_cons in Hin as [->|Hin]; [apply not_elem_of_nil | by apply IH].
    + destruct (split_on sep s) as [|piece0 pieces].
      { apply list_elem_of_singleton in Hin as ->.
        rewrite not_elem_of_cons. split; [congruence | apply not_elem_of_nil]. }
      apply elem_of_cons in Hin as [->|Hin].
      * rewrite not_elem_of_cons. split; [congruence|].
        apply IH, list_elem_of_here.
      * by apply IH, list_elem_of_further.
Qed.

Lemma split_on_length (sep : char) (s : str) :
  length (split_on sep s) = S (count sep s).
Proof.
  induction s as [|c s IH]; simpl; [done|]. rewrite count_cons.
  destruct (decide (c = sep)) as [->|Hc]; simpl; [by rewrite IH|].
  destruct (split_on sep s) as [|piece pieces]; simpl in *; lia.
Qed.

Lemma contents_alloc_set (h : heap) (d : list (str * loc)) (k : str)
    (v : list str) :
  valid h d →
  contents (h ++ [v]) (dict_set d k (length h)) = dict_set (contents h d) k v.
Proof.
  intros Hv. induction d as [|[k' l] d IH]; simpl.
  - unfold contents; simpl. unfold deref. by rewrite list_lookup_middle.
  - apply Forall_cons in Hv as [Hl Hv]. simpl in Hl.
    destruct (decide (k' = k)) as [->|Hne]; unfold contents in *; simpl.
    + f_equal.
      * unfold deref. by rewrite list_lookup_middle.
      * apply map_ext_Forall. eapply Forall_impl; [exact Hv|].
        intros [k1 l1] Hl1; simpl in *. by rewrite deref_app_l.
    + rewrite deref_app_l by done. f_equal. by apply IH.
Qed.

Lemma own_lists_alloc_set (h : heap) (d : list (str * loc)) (k : str)
    (v : list str) :
  own_lists h d → own_lists (h ++ [v]) (dict_set d k (length h)).
Proof.
  intros (Hk & Hl & Hv). split_and!.
  - rewrite keys_dict_set. destruct (decide (k ∈ keys d)); [done|].
    apply NoDup_app. split_and!; [done| |apply NoDup_singleton].
    intros x Hx Hx'. apply list_elem_of_singleton in Hx'. by subst.
  - clear Hk. induction d as [|[k' l] d IH]; simpl; [apply NoDup_singleton|].
    apply Forall_cons in Hv as [Hl0 Hv]. simpl in Hl0, Hl.
    apply NoDup_cons in Hl as [Hnl Hl].
    assert (length h ∉ map snd d) as Hfresh.
    { intros Hin. apply list_elem_of_fmap in Hin as ([k1 l1] & Heq & Hin).
      unfold valid in Hv. rewrite Forall_forall in Hv.
      specialize (Hv _ Hin). simpl in *. lia. }
    destruct (decide (k' = k)) as [->|Hne]; simpl.
    + apply NoDup_cons. split; [done|done].
    + apply NoDup_cons. split; [|by apply IH].
      intros Hin. apply list_elem_of_fmap in Hin as ([k1 l1] & Heq & Hin).
      simpl in Heq. subst l1.
      assert (l ∈ map snd d ∨ l = length h) as [?|?]; [|done|lia].
      clear -Hin. induction d as [|[k2 l2] d IH]; simpl in *.
      * apply list_elem_of_singleton in Hin. injection Hin as _ ->. by right.
      * destruct (decide (k2 = k)) as [->|?].
        -- apply elem_of_cons in Hin as [[= _ ->]|Hin]; [by right|].
           left. apply list_elem_of_further, list_elem_of_fmap. by exists (k1, l).
        -- apply elem_of_cons in Hin as [[= _ ->]|Hin];
             [left; apply list_elem_of_here|].
           destruct (IH Hin) as [?|?]; [left; by apply list_elem_of_further|by right].
  - unfold valid. clear Hk Hl.
    induction d as [|[k' l] d IH]; simpl.
    + apply Forall_singleton. simpl. rewrite length_app. simpl. lia.
    + apply Forall_cons in Hv as [Hl0 Hv]. simpl in Hl0.
      destruct (decide (k' = k)) as [->|Hne]; apply Forall_cons; simpl.
      * split; [rewrite length_app; simpl; lia|]. by apply valid_app.
      * split; [rewrite length_app; simpl; lia|]. by apply IH.
Qed.

Lemma input_cfg_loop_eof (n : nat) :
  ∀ (stdin : list str) (h : heap) (d : list (str * loc)),
    length stdin < 2 * n → input_cfg_loop n stdin h d = Fail EOFError.
Proof.
  induction n as [|n IH]; intros stdin h d Hlen; [lia|].
  cbn [input_cfg_loop]. destruct stdin as [|lhs [|rhs stdin]]; [done..|].
  cbn [alloc]. apply IH. simpl in Hlen. lia.
Qed.

Lemma input_cfg_loop_done (n : nat) :
  ∀ (stdin : list str) (h : heap) (d : list (str * loc)),
    2 * n ≤ length stdin → own_lists h d →
    ∃ h' d',
      input_cfg_loop n stdin h d = Done (drop (2 * n) stdin, h', d')
      ∧ own_lists h' d'
      ∧ (∃ new, h' = h ++ new)
      ∧ contents h' d'
        = foldl (fun productions e => dict_set productions e.1 (split_on bar e.2))
                (contents h d) (entries n stdin).
Proof.
  induction n as [|n IH]; intros stdin h d Hlen Hown.
  - exists h, d. split_and!; [done..| |done]. exists []. by rewrite app_nil_r.
  - destruct stdin as [|lhs [|rhs stdin]]; [simpl in Hlen; lia..|].
    cbn [input_cfg_loop alloc entries foldl fst snd].
    destruct (IH stdin (h ++ [split_on bar rhs]) (dict_set d lhs (length h)))
      as (h' & d' & -> & Hown' & (new & ->) & Hc).
    + simpl in Hlen. lia.
    + by apply own_lists_alloc_set.
    + exists (((h ++ [split_on bar rhs]) ++ new)), d'.
      split_and!; [|done| |].
      * f_equal. f_equal. f_equal. replace (2 * S n) with (S (S (2 * n))) by lia.
        done.
      * exists ([split_on bar rhs] ++ new). by rewrite <- app_assoc.
      * rewrite Hc. f_equal. apply contents_alloc_set, Hown.
Qed.

Lemma dict_of_entries_elem (es : list (str * str)) (acc : list (str * list str))
    (A : str) (alts : list str) :
  (A, alts) ∈ foldl (fun productions e =>
                       dict_set productions e.1 (split_on bar e.2)) acc es →
  (A, alts) ∈ acc ∨ ∃ rhs, (A, rhs) ∈ es ∧ alts = split_on bar rhs.
Proof.
  revert acc. induction es as [|[lhs rhs] es IH]; intros acc Hin; cbn [foldl] in Hin.
  - by left.
  - apply IH in Hin as [Hin|(rhs' & Hin & ->)].
    + cbn [fst snd] in Hin.
      assert ((A, alts) ∈ acc ∨ (A, alts) = (lhs, split_on bar rhs)) as [?|[= -> ->]].
      { clear -Hin. induction acc as [|[k v] acc IH]; simpl in Hin.
        - apply list_elem_of_singleton in Hin. by right.
        - destruct (decide (k = lhs)) as [->|?].
          + apply elem_of_cons in Hin as [?|?]; [by right|].
            left. by apply list_elem_of_further.
          + apply elem_of_cons in Hin as [->|Hin]; [left; apply list_elem_of_here|].
            destruct (IH Hin) as [?|?]; [left; by apply list_elem_of_further|by right]. }
      * by left.
      * right. exists rhs. split; [apply list_elem_of_here | done].
    + right. exists rhs'. split; [by apply list_elem_of_further | done].
Qed.

Lemma dict_of_entries_other (es : list (str * str)) (acc : list (str * list str))
    (k : str) :
  k ∉ map fst es →
  dict_get (foldl (fun productions e =>
                     dict_set productions e.1 (split_on bar e.2)) acc es) k
  = dict_get acc k.
Proof.
  revert acc. induction es as [|[lhs rhs] es IH]; intros acc Hk; cbn [foldl]; [done|].
  cbn [map fst] in Hk. apply not_elem_of_cons in Hk as [Hne Hk].
  rewrite IH by done. cbn [fst snd]. rewrite dict_get_set.
  by rewrite decide_False by congruence.
Qed.

Lemma dict_of_entries_last (es1 es2 : list (str * str)) (lhs rhs : str) :
  lhs ∉ map fst es2 →
  dict_get (dict_of_entries (es1 ++ (lhs, rhs) :: es2)) lhs
  = Some (split_on bar rhs).
Proof.
  intros Hk. unfold dict_of_entries. rewrite foldl_app. cbn [foldl fst snd].
  rewrite dict_of_entries_other by done. rewrite dict_get_set.
  by rewrite decide_True.
Qed.

Section console_facts.
Variable int : str → option Z.
Variable split_ws : str → list str.

Lemma input_cfg_done (stdin stdin' : list str) (h h' : heap)
    (d : list (str * loc)) :
  input_cfg int stdin h = Done (stdin', h', d) →
  ∃ line rest n,
    stdin = line :: rest ∧ int line = Some n
    ∧ 2 * Z.to_nat n ≤ length rest
    ∧ stdin' = drop (2 * Z.to_nat n) rest
    ∧ own_lists h' d
    ∧ (∃ new, h' = h ++ new)
    ∧ contents h' d = dict_of_entries (entries (Z.to_nat n) rest).
Proof.
  unfold input_cfg. destruct stdin as [|line rest]; [done|].
  destruct (int line) as [n|] eqn:En; [|done]. intros Hloop.
  destruct (decide (2 * Z.to_nat n ≤ length rest)) as [Hlen|Hlen].
  - destruct (input_cfg_loop_done (Z.to_nat n) rest h [] Hlen)
      as (h1 & d1 & Hd & Hown & Hnew & Hc).
    { split_and!; [apply NoDup_nil_2..|apply Forall_nil_2]. }
    rewrite Hd in Hloop. injection Hloop as <- <- <-.
    exists line, rest, n. split_and!; done.
  - rewrite input_cfg_loop_eof in Hloop by lia. done.
Qed.
End console_facts.

Lemma entries_elem (n : nat) (stdin : list str) (lhs rhs : str) :
  (lhs, rhs) ∈ entries n stdin → lhs ∈ stdin ∧ rhs ∈ stdin.
Proof.
  revert stdin. induction n as [|n IH]; intros stdin Hin.
  - destruct stdin; by apply elem_of_nil in Hin.
  - destruct stdin as [|l [|r stdin]]; try by apply elem_of_nil in Hin.
    cbn [entries] in Hin. apply elem_of_cons in Hin as [[= -> ->]|Hin].
    + split; [apply list_elem_of_here|apply list_elem_of_further, list_elem_of_here].
    + destruct (IH _ Hin). split; by do 2 apply list_elem_of_further.
Qed.



(** X9: in the dict that [input_cfg] returns, every nonterminal has at
    least one alternative (an empty line gives the one empty alternative),
    no alternative contains ['|'], and joining the alternatives with ['|']
    gives back a right-side line typed for that nonterminal; when a left
    side is typed several times, the last right side is the one kept. *)
Theorem input_cfg_alternatives (int : str → option Z) (line : str)
    (rest stdin' : list str) (h h' : heap) (d : list (str * loc)) (n : Z) :
  int line = Some n →
  input_cfg int (line :: rest) h = Done (stdin', h', d) →
  (∀ A alts,
     (A, alts) ∈ contents h' d →
     alts ≠ [] ∧ (∀ r, r ∈ alts → bar ∉ r)
     ∧ (A, join [bar] alts) ∈ entries (Z.to_nat n) rest)
  ∧ (∀ es1 lhs rhs es2,
       entries (Z.to_nat n) rest = es1 ++ (lhs, rhs) :: es2 →
       lhs ∉ map fst es2 →
       dict_get (contents h' d) lhs = Some (split_on bar rhs)).
Proof.
  intros Hn Hin.
  destruct (input_cfg_done int _ stdin' h h' d Hin)
    as (line' & rest' & n' & [= <- <-] & Hn' & _ & _ & _ & _ & Hc).
  rewrite Hn in Hn'. injection Hn' as <-. rewrite Hc. split.
  - intros A alts HA. unfold dict_of_entries in HA.
    apply dict_of_entries_elem in HA as [HA|(rhs & HA & ->)];
      [by apply elem_of_nil in HA|].
    split_and!.
    + apply split_on_nonempty.
    + intros r. apply split_on_no_sep.
    + by rewrite split_on_join.
  - intros es1 lhs rhs es2 -> Hlast. by apply dict_of_entries_last.
Qed.

Lemma input_cfg_alternatives_witness :
  int_decimal (py "3") = Some 3%Z
  ∧ input_cfg int_decimal
      [py "3"; py "S"; py "a"; py "B"; py ""; py "S"; py "bB|c"] []
    = Done ([], [[py "a"]; [[]]; [py "bB"; py "c"]], [(py "S", 2); (py "B", 1)])
  ∧ ∀ A alts,
      (A, alts) ∈ contents [[py "a"]; [[]]; [py "bB"; py "c"]]
                           [(py "S", 2); (py "B", 1)] →
      alts ≠ [] ∧ (∀ r, r ∈ alts → bar ∉ r)
      ∧ (A, join [bar] alts)
        ∈ entries (Z.to_nat 3) [py "S"; py "a"; py "B"; py ""; py "S"; py "bB|c"].
Proof.
  assert (int_decimal (py "3") = Some 3%Z) as Hn by (vm_compute; reflexivity).
  assert (input_cfg int_decimal
            [py "3"; py "S"; py "a"; py "B"; py ""; py "S"; py "bB|c"] []
          = Done ([], [[py "a"]; [[]]; [py "bB"; py "c"]],
                  [(py "S", 2); (py "B", 1)])) as H
    by (vm_compute; reflexivity).
  split_and!; [exact Hn | exact H |].
  exact (proj1 (input_cfg_alternatives int_decimal _ _ _ _ _ _ _ Hn H)).
Defined.

(** X10: when the first line is a count [n], [input_cfg] returns exactly
    when [2n] more lines are there, and it then leaves the lines after
    them unread; with fewer lines it raises [EOFError]; for [n <= 0] it
    reads nothing more and returns the empty dict. *)
Theorem input_cfg_returns (int : str → option Z) (line : str)
    (rest : list str) (h : heap) (n : Z) :
  int line = Some n →
  (length rest < 2 * Z.to_nat n →
   input_cfg int (line :: rest) h = Fail EOFError)
  ∧ (2 * Z.to_nat n ≤ length rest →
     ∃ h' d, input_cfg int (line :: rest) h
             = Done (drop (2 * Z.to_nat n) rest, h', d))
  ∧ ((n ≤ 0)%Z → input_cfg int (line :: rest) h = Done (rest, h, [])).
Proof.
  intros Hn. unfold input_cfg. rewrite Hn. split_and!.
  - apply input_cfg_loop_eof.
  - intros Hlen.
    destruct (input_cfg_loop_done (Z.to_nat n) rest h [] Hlen)
      as (h' & d' & -> & _).
    { split_and!; [apply NoDup_nil_2..|apply Forall_nil_2]. }
    by exists h', d'.
  - intros Hle. replace (Z.to_nat n) with 0 by lia. done.
Qed.

Lemma input_cfg_returns_witness :
  int_decimal (py "2") = Some 2%Z
  ∧ input_cfg int_decimal [py "2"; py "S"; py "a"; py "B"] [] = Fail EOFError.
Proof.
  assert (int_decimal (py "2") = Some 2%Z) as Hn by (vm_compute; reflexivity).
  split; [exact Hn|].
  apply (input_cfg_returns int_decimal (py "2") [py "S"; py "a"; py "B"] [] 2 Hn).
  vm_compute. lia.
Defined.

(** The update of line 179 on one entry of the dict. *)
Lemma add_transition_done
    (ts : list ((str * str * str) * list (str * str))) (line : str)
    (p a X r ns : str) :
  split_on comma line = [p; a; X; r; ns] →
  ∃ ts',
    add_transition ts line = Done ts'
    ∧ (NoDup (map fst ts) → NoDup (map fst ts'))
    ∧ (Forall (fun t => NoDup t.2) ts → Forall (fun t => NoDup t.2) ts')
    ∧ ∀ q b Y r' ns',
        move_of ts' q b Y r' ns'
        ↔ move_of ts q b Y r' ns' ∨ (q, b, Y, r', ns') = (p, a, X, r, ns).
Proof.
  intros Hsplit. unfold add_transition. rewrite Hsplit.
  set (key := (p, a, X)).
  set (ts1 := if decide (key ∈ map fst ts) then ts else ts ++ [(key, [])]).
  set (upd := fun t : (str * str * str) * list (str * str) =>
                if decide (t.1 = key)
                then (t.1, if decide ((r, ns) ∈ t.2) then t.2 else t.2 ++ [(r, ns)])
                else t).
  assert (∀ t, (upd t).1 = t.1) as Hfst.
  { intros t. unfold upd. by destruct (decide (t.1 = key)). }
  assert (∀ t, t ∈ ts1 ↔ t ∈ ts ∨ ((key ∉ map fst ts) ∧ t = (key, []))) as Hts1.
  { intros t. unfold ts1. destruct (decide (key ∈ map fst ts)) as [Hk|Hk].
    - split; [by left | intros [?|[? _]]; done].
    - rewrite elem_of_app, list_elem_of_singleton. tauto. }
  eexists. split; [done|]. split_and!.
  - intros Hnd. rewrite map_map.
    rewrite (map_ext (fun t => (upd t).1) fst) by apply Hfst.
    unfold ts1. destruct (decide (key ∈ map fst ts)) as [Hk|Hk]; [done|].
    rewrite fmap_app. apply NoDup_app. split_and!; [done| |apply NoDup_singleton].
    intros x Hx Hx'. apply list_elem_of_singleton in Hx'. by subst.
  - intros Hall. apply Forall_fmap, Forall_forall. intros t Ht.
    assert (NoDup t.2) as Hnd.
    { apply Hts1 in Ht as [Ht|[_ ->]]; [|apply NoDup_nil_2].
      rewrite Forall_forall in Hall. by apply Hall. }
    unfold compose, upd. destruct (decide (t.1 = key)); [|done]. simpl.
    destruct (decide ((r, ns) ∈ t.2)) as [?|Hnew]; [done|].
    apply NoDup_app. split_and!; [done| |apply NoDup_singleton].
    intros x Hx Hx'. apply list_elem_of_singleton in Hx'. by subst.
  - intros q b Y r' ns'. unfold move_of. split.
    + intros (nexts & Hin & Hm).
      apply list_elem_of_fmap in Hin as (t & Ht & Hin). unfold upd in Ht.
      destruct (decide (t.1 = key)) as [Hk|Hk].
      * destruct t as [k0 nx]. simpl in *. subst k0. injection Ht as -> -> -> ->.
        destruct (decide ((r, ns) ∈ nx)) as [?|?].
        -- apply Hts1 in Hin as [Hin|[_ [= ->]]]; [|by apply elem_of_nil in Hm].
           left. by exists nx.
        -- apply elem_of_app in Hm as [Hm|Hm].
           ++ apply Hts1 in Hin as [Hin|[_ [= ->]]]; [|by apply elem_of_nil in Hm].
              left. by exists nx.
           ++ apply list_elem_of_singleton in Hm. right. by simplify_eq.
      * subst t. apply Hts1 in Hin as [Hin|[_ Heq]].
        -- left. by exists nexts.
        -- by simplify_eq.
    + intros [(nexts & Hin & Hm)|Heq].
      * set (t := ((q, b, Y), nexts)).
        exists (upd t).2. split.
        -- apply list_elem_of_fmap. exists t. split; [|apply Hts1; by left].
           pose proof (Hfst t) as Hf. destruct (upd t) as [k nx].
           simpl in *. by subst.
        -- unfold upd. destruct (decide (t.1 = key)); [|done]. simpl.
           destruct (decide ((r, ns) ∈ nexts)); [done|].
           apply elem_of_app. by left.
      * injection Heq as -> -> -> -> ->.
        assert (∃ nexts, (key, nexts) ∈ ts1) as (nexts & Hin).
        { unfold ts1. destruct (decide (key ∈ map fst ts)) as [Hk|Hk].
          - apply list_elem_of_fmap in Hk as ([k nx] & -> & Hin). by exists nx.
          - exists []. apply elem_of_app. right. apply list_elem_of_here. }
        exists (upd (key, nexts)).2. split.
        -- apply list_elem_of_fmap. exists (key, nexts). split; [|done].
           pose proof (Hfst (key, nexts)) as Hf. destruct (upd (key, nexts)) as [k nx].
           simpl in *. by subst.
        -- unfold upd. simpl. rewrite decide_True by done. simpl.
           destruct (decide ((r, ns) ∈ nexts)); [done|].
           apply elem_of_app. right. apply list_elem_of_here.
Qed.

Lemma add_transition_fail
    (ts : list ((str * str * str) * list (str * str))) (line : str) :
  length (split_on comma line) ≠ 5 →
  add_transition ts line = Fail (Exn ValueError).
Proof.
  intros Hlen. unfold add_transition.
  destruct (split_on comma line) as [|? [|? [|? [|? [|? [|? ?]]]]]]; done.
Qed.

Lemma five_fields (l : list str) :
  length l = 5 → ∃ p a X r ns, l = [p; a; X; r; ns].
Proof.
  destruct l as [|p [|a [|X [|r [|ns [|? ?]]]]]]; try done.
  intros _. by exists p, a, X, r, ns.
Qed.

Lemma read_transitions_spec (n : nat) :
  ∀ (stdin : list str) (ts : list ((str * str * str) * list (str * str))),
    read_transitions_outcome n stdin ts (read_transitions n stdin ts).
Proof.
  induction n as [|n IH]; intros stdin ts.
  - cbn [read_transitions read_transitions_outcome take].
    rewrite drop_0. split_and!; [apply Forall_nil_2|lia|done..|].
    intros p a X r ns. split; [by left|].
    intros [?|(line & Hin & _)]; [done|by apply elem_of_nil in Hin].
  - destruct stdin as [|line stdin].
    { cbn. split; [apply Forall_nil_2|lia]. }
    cbn [read_transitions].
    destruct (decide (length (split_on comma line) = 5)) as [H5|H5].
    + destruct (five_fields _ H5) as (p0 & a0 & X0 & r0 & ns0 & Hsplit).
      destruct (add_transition_done ts line p0 a0 X0 r0 ns0 Hsplit)
        as (ts1 & -> & Hk1 & Hs1 & Hm1).
      specialize (IH stdin ts1).
      destruct (read_transitions n stdin ts1) as [[stdin' ts']|[|[]]];
        cbn [read_transitions_outcome take] in *.
      * destruct IH as (Hall & Hlen & -> & Hk & Hs & Hm).
        split_and!; [by apply Forall_cons|simpl; lia|done|tauto|tauto|].
        intros p a X r ns. rewrite Hm, Hm1. split.
        -- intros [[?|Heq]|(l & Hl & Hsp)]; [by left|right..].
           ++ exists line. split; [apply list_elem_of_here|]. by simplify_eq.
           ++ exists l. split; [by apply list_elem_of_further|done].
        -- intros [?|(l & Hl & Hsp)]; [by left; left|].
           apply elem_of_cons in Hl as [->|Hl].
           ++ left. right. rewrite Hsplit in Hsp. by simplify_eq.
           ++ right. by exists l.
      * destruct IH as [Hall Hlen]. split; [by apply Forall_cons|simpl; lia].
      * done.
      * by apply Exists_cons_tl.
    + rewrite add_transition_fail by done.
      cbn [read_transitions_outcome take]. by apply Exists_cons_hd.
Qed.

(** X11: the loop of [input_pda] that reads [n] transition lines raises
    [ValueError] when one of the lines it has to read has not exactly five
    comma-separated fields (four commas), else [EOFError] when fewer than
    [n] lines are there; else it returns, leaves the later lines unread,
    and the transitions recorded are exactly those of the lines read, each
    key once and each move once under its key. *)
Theorem read_transitions_result (n : nat) (stdin : list str) :
  read_transitions_outcome n stdin [] (read_transitions n stdin [])
  ∧ ∀ line, length (split_on comma line) = 5 ↔ count comma line = 4.
Proof.
  split; [apply read_transitions_spec|].
  intros line. rewrite split_on_length. lia.
Qed.

(** X12: after [input_pda], the dict that [convert] returns holds exactly
    the productions of the transition lines typed: for a line [p,a,X,r,w]
    the productions of round [0 <= i <= len(w)]; this holds for every order
    in which the sets of moves may be listed. *)
Theorem input_pda_convert (int : str → option Z) (split_ws : str → list str)
    (l1 l2 l3 l4 : str) (rest stdin' : list str) (pda : PDAtoCFG) (n : Z)
    (ts' : list ((str * str * str) * list (str * str))) :
  int l4 = Some n →
  input_pda int split_ws (l1 :: l2 :: l3 :: l4 :: rest) = Done (stdin', pda) →
  (∀ p a X r w, move_of ts' p a X r w ↔ move_of (transitions pda) p a X r w) →
  ∀ lhs rhs,
    has (convert (PDAtoCFG_init (states pda) (input_alphabet pda)
                    (stack_alphabet pda) ts' (start_state pda)
                    (start_symbol pda) (final_state pda))) lhs rhs
    ↔ ∃ line p a X r w i,
        line ∈ take (Z.to_nat n) rest
        ∧ split_on comma line = [p; a; X; r; w]
        ∧ i ≤ length w
        ∧ production_at p a X r w i = (lhs, rhs).
Proof.
  intros Hn Hin Hsame lhs rhs. unfold input_pda in Hin. rewrite Hn in Hin.
  pose proof (read_transitions_spec (Z.to_nat n) rest []) as Hspec.
  destruct (read_transitions (Z.to_nat n) rest []) as [[stdin1 ts]|e]; [|done].
  destruct stdin1 as [|s1 [|s2 [|s3 stdin1]]]; try done.
  injection Hin as <- <-.
  cbn [read_transitions_outcome] in Hspec.
  destruct Hspec as (_ & _ & _ & _ & _ & Hm).
  cbn [transitions PDAtoCFG_init] in Hsame.
  rewrite convert_has. cbn [cfg_productions transitions PDAtoCFG_init]. split.
  - intros [(alts & Hget & _)|(p & a & X & r & w & i & Hmove & Hi & Hp)];
      [discriminate Hget|].
    apply Hsame, Hm in Hmove as [(nx & Hnx & _)|(line & Hl & Hsp)];
      [by apply elem_of_nil in Hnx|].
    by exists line, p, a, X, r, w, i.
  - intros (line & p & a & X & r & w & i & Hl & Hsp & Hi & Hp). right.
    exists p, a, X, r, w, i. split_and!; [|done..].
    apply Hsame, Hm. right. by exists line.
Qed.

Lemma input_pda_convert_witness :
  int_decimal (py "2") = Some 2%Z
  ∧ ∃ stdin' pda,
      input_pda int_decimal split_blank
        [py "p q"; py "a"; py "Z Y"; py "2"; py "p,a,Z,p,YZ"; py "p,a,Z,p,YZ";
         py "p"; py "Z"; py "q"] = Done (stdin', pda)
      ∧ ∀ lhs rhs,
          has (convert (PDAtoCFG_init (states pda) (input_alphabet pda)
                          (stack_alphabet pda) (transitions pda) (start_state pda)
                          (start_symbol pda) (final_state pda))) lhs rhs
          ↔ ∃ line p a X r w i,
              line ∈ take (Z.to_nat 2)
                          [py "p,a,Z,p,YZ"; py "p,a,Z,p,YZ"; py "p"; py "Z"; py "q"]
              ∧ split_on comma line = [p; a; X; r; w]
              ∧ i ≤ length w
              ∧ production_at p a X r w i = (lhs, rhs).
Proof.
  assert (int_decimal (py "2") = Some 2%Z) as Hn by (vm_compute; reflexivity).
  split; [exact Hn|].
  eexists _, _. split; [vm_compute; reflexivity|].
  eapply (input_pda_convert int_decimal split_blank
            (py "p q") (py "a") (py "Z Y") (py "2")
            [py "p,a,Z,p,YZ"; py "p,a,Z,p,YZ"; py "p"; py "Z"; py "q"]
            _ _ 2 _ Hn);
    [vm_compute; reflexivity | done].
Defined.
